(** * hybridnet: ARP activation check, RemoteVtep event handler, address retention

    A shallow embedding of
    - [CheckWithTimeout] (package arp),
    - [enqueueRequestForRemoteVtep] (package controller),
    - the address allocator and retention store exercised by the pod
      controller integration suite,
    together with the properties stated for them. *)

From Stdlib Require Import ZArith DecimalString DecimalN DecimalPos.
From Stdlib.Strings Require Import Byte.
From stdpp Require Import base strings list gmap.

(** Concatenation of texts is associative. *)
Lemma append_assoc (s1 s2 s3 : string) : (s1 +:+ s2) +:+ s3 = s1 +:+ (s2 +:+ s3).
Proof.
  induction s1 as [|c s1 IH]; [reflexivity|].
  change (String c ((s1 +:+ s2) +:+ s3) = String c (s1 +:+ (s2 +:+ s3))).
  by f_equal.
Qed.

(** ** Package arp *)

Module Arp.

Local Open Scope Z_scope.

(** [net.IP] and [net.HardwareAddr] are byte slices, [time.Duration] is an
    int64 count of nanoseconds. *)
Definition IP : Type := list byte.
Definition HardwareAddr : Type := list byte.
Definition Duration : Type := Z.

(** [net.Interface]. *)
Record Interface : Type := mkInterface {
  Index : Z;
  MTU : Z;
  Name : string;
  IfHardwareAddr : HardwareAddr;
  Flags : Z
}.

(** A Go [error] as this package sees it: the code only tests an error
    against nil and prints it with the verb v, which calls [Error()].
    [fmt.Errorf] with no wrapping verb returns [errors.New] of the formatted
    text, a value whose only content is that text. *)
Record error : Type := errorString { Error : string }.

(** [net.ParseIP("0.0.0.0")]: the 16-byte IPv4-in-IPv6 form of 0.0.0.0. *)
Definition v4InV6Prefix : list byte :=
  [x00; x00; x00; x00; x00; x00; x00; x00; x00; x00; xff; xff].
Definition ParseIP_0_0_0_0 : IP := v4InV6Prefix ++ [x00; x00; x00; x00].
Arguments ParseIP_0_0_0_0 : simpl never.

(** The two entry points of package arping that [CheckWithTimeout] calls are
    link-layer I/O.  A computation over them is a tree of calls; each node
    carries the arguments of the call and the continuation that receives
    what the call returned. *)
Inductive arping (A : Type) : Type :=
| Ret (a : A)
| PingOverIface (srcIP dstIP : IP) (ifi : Interface) (timeout : Duration)
    (k : HardwareAddr * option error → arping A)
| GratuitousOverIface (srcIP : IP) (ifi : Interface)
    (k : option error → arping A).
Arguments Ret {A} a.
Arguments PingOverIface {A} srcIP dstIP ifi timeout k.
Arguments GratuitousOverIface {A} srcIP ifi k.

(** One record per call that reached the network. *)
Inductive Call : Type :=
| CallPing (srcIP dstIP : IP) (ifi : Interface) (timeout : Duration)
| CallGratuitous (srcIP : IP) (ifi : Interface).

(** The link layer: what each call returns in a world [W], and the world
    after the call. *)
Record Net (W : Type) : Type := mkNet {
  net_ping : IP → IP → Interface → Duration → W → (HardwareAddr * option error) * W;
  net_gratuitous : IP → Interface → W → option error * W
}.
Arguments net_ping {W} n.
Arguments net_gratuitous {W} n.
Arguments mkNet {W} _ _.

(** Result of a run: the returned value, the final world, the calls made in
    order. *)
Fixpoint run {W A : Type} (net : Net W) (p : arping A) (w : W) : A * W * list Call :=
  match p with
  | Ret a => (a, w, [])
  | PingOverIface s d i t k =>
      let '(r, w1) := net_ping net s d i t w in
      let '(a, w2, tr) := run net (k r) w1 in
      (a, w2, CallPing s d i t :: tr)
  | GratuitousOverIface s i k =>
      let '(r, w1) := net_gratuitous net s i w in
      let '(a, w2, tr) := run net (k r) w1 in
      (a, w2, CallGratuitous s i :: tr)
  end.

Section CheckWithTimeout.

(** [net.IP.String] and [net.HardwareAddr.String] of the Go library. *)
Variable IP_String : IP → string.
Variable HardwareAddr_String : HardwareAddr → string.

(** The three [fmt.Errorf] values of [CheckWithTimeout]. *)
Definition gatewayErrorf (srcPod gateway : IP) (err : error) (ifi : Interface) : error :=
  errorString
    ("arp resolve from pod " +:+ IP_String srcPod +:+ " to gateway " +:+
     IP_String gateway +:+ " failed: " +:+ Error err +:+
     ", vlan network seems not working, please check the setting of " +:+
     Name ifi +:+ "'s upper physical switch port first").

Definition duplicateErrorf (srcPod : IP) (duplicatedHw : HardwareAddr) : error :=
  errorString
    ("pod ip " +:+ IP_String srcPod +:+ " duplicated" +:+
     ", please check if ip " +:+ IP_String srcPod +:+
     " is occupied by other machines or containers, another hw addr is " +:+
     HardwareAddr_String duplicatedHw).

Definition gratuitousErrorf (srcPod : IP) (err : error) : error :=
  errorString
    ("send gratuitous arp for pod " +:+ IP_String srcPod +:+ " failed " +:+ Error err).

(** [CheckWithTimeout]: [None] is the nil error. *)
Definition CheckWithTimeout (ifi : Interface) (srcPod gateway : IP)
    (timeout : Duration) : arping (option error) :=
  PingOverIface srcPod gateway ifi timeout (λ '(_, err),
    match err with
    | Some err => Ret (Some (gatewayErrorf srcPod gateway err ifi))
    | None =>
      PingOverIface ParseIP_0_0_0_0 srcPod ifi timeout (λ '(duplicatedHw, err),
        match err with
        | None => Ret (Some (duplicateErrorf srcPod duplicatedHw))
        | Some _ =>
          GratuitousOverIface srcPod ifi (λ err,
            match err with
            | Some err => Ret (Some (gratuitousErrorf srcPod err))
            | None => Ret None
            end)
        end)
    end).

(** The three calls [CheckWithTimeout] can make. *)
Definition gatewayProbe (ifi : Interface) (srcPod gateway : IP) (timeout : Duration) : Call :=
  CallPing srcPod gateway ifi timeout.
Definition duplicateProbe (ifi : Interface) (srcPod : IP) (timeout : Duration) : Call :=
  CallPing ParseIP_0_0_0_0 srcPod ifi timeout.
Definition announcement (ifi : Interface) (srcPod : IP) : Call :=
  CallGratuitous srcPod ifi.



(** The outcome of a run once the results of the calls are known. *)
Lemma run_gateway_error {W : Type} (net : Net W) (w w1 : W) ifi srcPod gateway timeout hw e :
  net_ping net srcPod gateway ifi timeout w = ((hw, Some e), w1) →
  run net (CheckWithTimeout ifi srcPod gateway timeout) w =
    (Some (gatewayErrorf srcPod gateway e ifi), w1,
     [gatewayProbe ifi srcPod gateway timeout]).
Proof. intros H. cbn. rewrite H. reflexivity. Qed.

Lemma run_duplicate_reply {W : Type} (net : Net W) (w w1 w2 : W) ifi srcPod gateway timeout hw0 hw :
  net_ping net srcPod gateway ifi timeout w = ((hw0, None), w1) →
  net_ping net ParseIP_0_0_0_0 srcPod ifi timeout w1 = ((hw, None), w2) →
  run net (CheckWithTimeout ifi srcPod gateway timeout) w =
    (Some (duplicateErrorf srcPod hw), w2,
     [gatewayProbe ifi srcPod gateway timeout; duplicateProbe ifi srcPod timeout]).
Proof. intros H1 H2. cbn. rewrite H1. cbn. rewrite H2. reflexivity. Qed.

Lemma run_duplicate_error {W : Type} (net : Net W) (w w1 w2 : W) ifi srcPod gateway timeout hw0 hw e :
  net_ping net srcPod gateway ifi timeout w = ((hw0, None), w1) →
  net_ping net ParseIP_0_0_0_0 srcPod ifi timeout w1 = ((hw, Some e), w2) →
  run net (CheckWithTimeout ifi srcPod gateway timeout) w =
    (match (net_gratuitous net srcPod ifi w2).1 with
     | Some e' => Some (gratuitousErrorf srcPod e')
     | None => None
     end,
     (net_gratuitous net srcPod ifi w2).2,
     [gatewayProbe ifi srcPod gateway timeout; duplicateProbe ifi srcPod timeout;
      announcement ifi srcPod]).
Proof.
  intros H1 H2. cbn. rewrite H1. cbn. rewrite H2. cbn.
  destruct (net_gratuitous net srcPod ifi w2) as [[e'|] w3]; reflexivity.
Qed.

(** The three messages start differently, so the kinds of failure can be
    told apart from the text. *)
Lemma errorf_distinct srcPod gateway cause ifi srcPod' hw srcPod'' cause' :
  gatewayErrorf srcPod gateway cause ifi ≠ duplicateErrorf srcPod' hw ∧
  gatewayErrorf srcPod gateway cause ifi ≠ gratuitousErrorf srcPod'' cause' ∧
  duplicateErrorf srcPod' hw ≠ gratuitousErrorf srcPod'' cause'.
Proof. repeat split; intros H; injection H; cbn; discriminate. Qed.

(** A run makes one, two or three calls, always in the same order. *)
Lemma run_cases {W : Type} (net : Net W) (w : W) ifi srcPod gateway timeout :
  let r := run net (CheckWithTimeout ifi srcPod gateway timeout) w in
  (∃ hw e w1,
     net_ping net srcPod gateway ifi timeout w = ((hw, Some e), w1) ∧
     r = (Some (gatewayErrorf srcPod gateway e ifi), w1,
          [gatewayProbe ifi srcPod gateway timeout])) ∨
  (∃ hw0 w1 hw w2,
     net_ping net srcPod gateway ifi timeout w = ((hw0, None), w1) ∧
     net_ping net ParseIP_0_0_0_0 srcPod ifi timeout w1 = ((hw, None), w2) ∧
     r = (Some (duplicateErrorf srcPod hw), w2,
          [gatewayProbe ifi srcPod gateway timeout; duplicateProbe ifi srcPod timeout])) ∨
  (∃ hw0 w1 hw e w2 e' w3,
     net_ping net srcPod gateway ifi timeout w = ((hw0, None), w1) ∧
     net_ping net ParseIP_0_0_0_0 srcPod ifi timeout w1 = ((hw, Some e), w2) ∧
     net_gratuitous net srcPod ifi w2 = (Some e', w3) ∧
     r = (Some (gratuitousErrorf srcPod e'), w3,
          [gatewayProbe ifi srcPod gateway timeout; duplicateProbe ifi srcPod timeout;
           announcement ifi srcPod])) ∨
  (∃ hw0 w1 hw e w2 w3,
     net_ping net srcPod gateway ifi timeout w = ((hw0, None), w1) ∧
     net_ping net ParseIP_0_0_0_0 srcPod ifi timeout w1 = ((hw, Some e), w2) ∧
     net_gratuitous net srcPod ifi w2 = (None, w3) ∧
     r = (None, w3,
          [gatewayProbe ifi srcPod gateway timeout; duplicateProbe ifi srcPod timeout;
           announcement ifi srcPod])).
Proof.
  intros r. subst r.
  destruct (net_ping net srcPod gateway ifi timeout w) as [[hw0 [e|]] w1] eqn:E1.
  { left. exists hw0, e, w1. split; [done|]. by eapply run_gateway_error. }
  destruct (net_ping net ParseIP_0_0_0_0 srcPod ifi timeout w1) as [[hw [e|]] w2] eqn:E2.
  2:{ right; left. exists hw0, w1, hw, w2. repeat split; [done..|].
      by eapply run_duplicate_reply. }
  right; right.
  rewrite (run_duplicate_error net w w1 w2 ifi srcPod gateway timeout hw0 hw e E1 E2).
  destruct (net_gratuitous net srcPod ifi w2) as [[e'|] w3] eqn:E3.
  - left. by exists hw0, w1, hw, e, w2, e', w3.
  - right. by exists hw0, w1, hw, e, w2, w3.
Qed.

(** C2: when the duplicate-address probe (sender 0.0.0.0, target the pod
    address) gets a reply, the check returns the duplicate-address error, whose
    text ends with the hardware address of the responder, and stops; when the
    probe returns an error (no reply), the next call is the gratuitous
    announcement. *)
Theorem duplicate_probe_reply_is_failure {W : Type} (net : Net W) (w w1 w2 : W)
    ifi srcPod gateway timeout hw0 hw err :
  net_ping net srcPod gateway ifi timeout w = ((hw0, None), w1) →
  net_ping net ParseIP_0_0_0_0 srcPod ifi timeout w1 = ((hw, err), w2) →
  let r := run net (CheckWithTimeout ifi srcPod gateway timeout) w in
  r.2 !! 1%nat = Some (CallPing ParseIP_0_0_0_0 srcPod ifi timeout) ∧
  match err with
  | None =>
      r.1.1 = Some (duplicateErrorf srcPod hw) ∧
      (∃ text, Error (duplicateErrorf srcPod hw) = text +:+ HardwareAddr_String hw) ∧
      r.2 = [gatewayProbe ifi srcPod gateway timeout; duplicateProbe ifi srcPod timeout]
  | Some _ =>
      r.2 = [gatewayProbe ifi srcPod gateway timeout; duplicateProbe ifi srcPod timeout;
             announcement ifi srcPod]
  end.
Proof.
  intros H1 H2 r. subst r. destruct err as [e|].
  - rewrite (run_duplicate_error net w w1 w2 ifi srcPod gateway timeout hw0 hw e H1 H2).
    by split.
  - rewrite (run_duplicate_reply net w w1 w2 ifi srcPod gateway timeout hw0 hw H1 H2).
    split; [done|]. split; [done|]. split; [|done].
    exists ("pod ip " +:+ IP_String srcPod +:+ " duplicated" +:+
            ", please check if ip " +:+ IP_String srcPod +:+
            " is occupied by other machines or containers, another hw addr is ").
    by rewrite !append_assoc.
Qed.

(** C3: when the gateway probe returns an error, the check returns the
    gateway error and the gateway probe is the only call made: neither the
    duplicate-address probe nor the announcement is attempted. *)
Theorem gateway_failure_fails_fast {W : Type} (net : Net W) (w w1 : W)
    ifi srcPod gateway timeout hw e :
  net_ping net srcPod gateway ifi timeout w = ((hw, Some e), w1) →
  let r := run net (CheckWithTimeout ifi srcPod gateway timeout) w in
  r.1.1 = Some (gatewayErrorf srcPod gateway e ifi) ∧
  r.2 = [gatewayProbe ifi srcPod gateway timeout] ∧
  r.1.2 = w1.
Proof. intros H r. subst r. by rewrite (run_gateway_error net w w1 _ _ _ _ hw e H). Qed.

(** C4: the check returns nil exactly when the gateway probe is answered, the
    duplicate-address probe is not, and the announcement is sent without
    error; an error of the announcement makes the check fail. *)
Theorem success_iff_all_steps_favorable {W : Type} (net : Net W) (w : W)
    ifi srcPod gateway timeout :
  let r := run net (CheckWithTimeout ifi srcPod gateway timeout) w in
  (r.1.1 = None ↔
   ∃ hw0 w1 hw e w2 w3,
     net_ping net srcPod gateway ifi timeout w = ((hw0, None), w1) ∧
     net_ping net ParseIP_0_0_0_0 srcPod ifi timeout w1 = ((hw, Some e), w2) ∧
     net_gratuitous net srcPod ifi w2 = (None, w3)) ∧
  (∀ hw0 w1 hw e w2 e' w3,
     net_ping net srcPod gateway ifi timeout w = ((hw0, None), w1) →
     net_ping net ParseIP_0_0_0_0 srcPod ifi timeout w1 = ((hw, Some e), w2) →
     net_gratuitous net srcPod ifi w2 = (Some e', w3) →
     r.1.1 = Some (gratuitousErrorf srcPod e')).
Proof.
  intros r. split.
  - split.
    + intros Hnil.
      destruct (run_cases net w ifi srcPod gateway timeout)
        as [(?&?&?&?&E)|[(?&?&?&?&?&?&E)|[(?&?&?&?&?&?&?&?&?&?&E)|(hw0&w1&hw&e&w2&w3&?&?&?&E)]]];
        fold r in E; rewrite E in Hnil; try discriminate.
      by exists hw0, w1, hw, e, w2, w3.
    + intros (hw0&w1&hw&e&w2&w3&H1&H2&H3). subst r.
      rewrite (run_duplicate_error net w w1 w2 _ _ _ _ hw0 hw e H1 H2), H3. done.
  - intros hw0 w1 hw e w2 e' w3 H1 H2 H3. subst r.
    rewrite (run_duplicate_error net w w1 w2 _ _ _ _ hw0 hw e H1 H2), H3. done.
Qed.

(** C10: whatever error the duplicate-address probe returns (a timeout, a
    failure to send, anything else), the check goes on to the gratuitous
    announcement and its outcome is that of the announcement alone; the
    duplicate-address error is returned only when the probe returns no
    error. *)
Theorem duplicate_probe_errors_all_proceed {W : Type} (net : Net W) (w w1 w2 : W)
    ifi srcPod gateway timeout hw0 hw err :
  net_ping net srcPod gateway ifi timeout w = ((hw0, None), w1) →
  net_ping net ParseIP_0_0_0_0 srcPod ifi timeout w1 = ((hw, err), w2) →
  let r := run net (CheckWithTimeout ifi srcPod gateway timeout) w in
  (∀ e, err = Some e →
     r = (match (net_gratuitous net srcPod ifi w2).1 with
          | Some e' => Some (gratuitousErrorf srcPod e')
          | None => None
          end,
          (net_gratuitous net srcPod ifi w2).2,
          [gatewayProbe ifi srcPod gateway timeout; duplicateProbe ifi srcPod timeout;
           announcement ifi srcPod])) ∧
  (r.1.1 = Some (duplicateErrorf srcPod hw) ↔ err = None).
Proof.
  intros H1 H2 r. split.
  - intros e ->. by eapply run_duplicate_error.
  - subst r. destruct err as [e|].
    + rewrite (run_duplicate_error net w w1 w2 _ _ _ _ hw0 hw e H1 H2). cbn.
      split; [|done]. destruct (net_gratuitous net srcPod ifi w2).1 as [e'|]; [|done].
      intros H. exfalso.
      destruct (errorf_distinct srcPod gateway e ifi srcPod hw srcPod e') as (_&_&Hd).
      apply Hd. congruence.
    + by rewrite (run_duplicate_reply net w w1 w2 _ _ _ _ hw0 hw H1 H2).
Qed.



End CheckWithTimeout.

(** *** A concrete link layer

    The text of a hardware address as [net.HardwareAddr.String] prints it
    (two hexadecimal digits per byte, separated by colons), the text of an
    address as [net.IP.String] prints it, and a link layer whose clock is its
    world. *)
#[global] Instance byte_eq_decision : EqDecision byte := byte_eq_dec.

Definition hexDigit (n : N) : Ascii.ascii :=
  nth (N.to_nat n) (String.list_ascii_of_string "0123456789abcdef") Ascii.zero.

Definition hexByte (b : byte) : string :=
  String (hexDigit (Byte.to_N b / 16)) (String (hexDigit (Byte.to_N b mod 16)) "").

Definition hwString (a : HardwareAddr) : string :=
  match a with
  | [] => ""
  | b :: bs => fold_left (λ buf b, buf +:+ ":" +:+ hexByte b) bs (hexByte b)
  end.

Definition decByte (b : byte) : string := NilZero.string_of_uint (N.to_uint (Byte.to_N b)).

Definition To4 (ip : IP) : option (list byte) :=
  if decide (length ip = 4%nat) then Some ip
  else if decide (length ip = 16%nat ∧ take 12 ip = v4InV6Prefix) then Some (drop 12 ip)
  else None.

(** [hexString]: two hexadecimal digits for every byte. *)
Definition hexString (bs : list byte) : string :=
  fold_left (λ buf b, buf +:+ hexByte b) bs "".

(** [appendHex]: a number in hexadecimal without leading zeros. *)
Definition appendHex (n : N) : string :=
  if decide (n = 0%N) then "0"
  else
    fold_left
      (λ buf j, let v := N.shiftr n (4 * j) in
                if decide (0 < v)%N then buf +:+ String (hexDigit (v mod 16)) "" else buf)
      [7; 6; 5; 4; 3; 2; 1; 0]%N "".

(** The eight 16-bit groups of a 16-byte address. *)
Fixpoint groups (ip : list byte) : list N :=
  match ip with
  | hi :: lo :: rest => (Byte.to_N hi * 256 + Byte.to_N lo)%N :: groups rest
  | _ => []
  end.

(** The number of zero groups a list of groups starts with. *)
Fixpoint zeros (gs : list N) : nat :=
  match gs with
  | 0%N :: gs' => S (zeros gs')
  | _ => 0%nat
  end.

(** The first longest run of zero groups from group [i] on, as start and
    length; [best] is the longest one found before [i]. *)
Fixpoint longestZeros (gs : list N) (i : nat) (best : nat * nat) : nat * nat :=
  match gs with
  | [] => best
  | _ :: gs' =>
      longestZeros gs' (S i) (if decide (best.2 < zeros gs)%nat then (i, zeros gs) else best)
  end.

Definition colons (gs : list N) : string := String.concat ":" (appendHex <$> gs).

(** [net.IP.String]: "<nil>" for the empty address, dotted decimal for an
    IPv4 address in its 4-byte or 16-byte form, for another 16-byte address
    its groups in hexadecimal with the first longest run of two or more zero
    groups written "::", and a question mark followed by the bytes in
    hexadecimal for any other length. *)
Definition ipString (ip : IP) : string :=
  if decide (length ip = 0%nat) then "<nil>"
  else
    match To4 ip with
    | Some [a; b; c; d] =>
        decByte a +:+ "." +:+ decByte b +:+ "." +:+ decByte c +:+ "." +:+ decByte d
    | _ =>
        if decide (length ip = 16%nat) then
          let gs := groups ip in
          let '(e0, n) := longestZeros gs 0 (0%nat, 0%nat) in
          if decide (n ≤ 1)%nat then colons gs
          else colons (take e0 gs) +:+ "::" +:+ colons (drop (e0 + n) gs)
        else "?" +:+ hexString ip
    end.

Definition errTimeout : error := errorString "timeout".
Definition errSend : error := errorString "network is down".

(** [gw]: the gateway answers; [dup]: another host answers for the pod
    address; [ann]: the announcement can be sent; [sendTime]: the time the
    announcement takes.  A probe that is answered returns at once, one that is
    not returns when its timeout has passed. *)
Definition scenario (gw dup ann : bool) (sendTime : Z) : Net Z :=
  mkNet
    (λ s d i t w,
       if decide (s = ParseIP_0_0_0_0) then
         if dup then (([xde; xad; xbe; xef; x00; x01], None), w)
         else (([], Some errTimeout), (w + t)%Z)
       else
         if gw then (([x02; x42; xac; x11; x00; x01], None), w)
         else (([], Some errTimeout), (w + t)%Z))
    (λ s i w, (if ann then None else Some errSend, (w + sendTime)%Z)).

Definition eth0 : Interface := mkInterface 2 1500 "eth0" [x02; x42; xac; x11; x00; x02] 19.
Definition eth1 : Interface := mkInterface 3 1500 "eth1" [x02; x42; xac; x11; x00; x03] 19.
Definition podIP : IP := [x0a; x00; x00; x05].
Definition gatewayIP : IP := [x0a; x00; x00; x01].

Example hwString_example : hwString [xde; xad; xbe; xef; x00; x01] = "de:ad:be:ef:00:01".
Proof. reflexivity. Qed.

Example ipString_example :
  ipString podIP = "10.0.0.5" ∧ ipString ParseIP_0_0_0_0 = "0.0.0.0".
Proof. split; reflexivity. Qed.

Example ipString_other_forms :
  ipString [] = "<nil>" ∧
  ipString [x0a; x00; x05] = "?0a0005" ∧
  ipString [x20; x01; x0d; xb8; x00; x00; x00; x00; x00; x00; x00; x00; x00; x00; x00; x01]
    = "2001:db8::1" ∧
  ipString [x00; x01; x00; x00; x00; x00; x00; x02; x00; x00; x00; x00; x00; x00; x00; x03]
    = "1:0:0:2::3" ∧
  ipString [xfe; x80; x00; x00; x00; x00; x00; x00; x00; x00; x00; x00; x00; x00; x00; x00]
    = "fe80::" ∧
  ipString [x00; x00; x00; x00; x00; x00; x00; x00; x00; x00; x00; x00; x00; x00; x00; x01]
    = "::1" ∧
  ipString [x20; x01; x00; x00; x00; x01; x00; x02; x00; x03; x00; x04; x00; x05; x00; x06]
    = "2001:0:1:2:3:4:5:6".
Proof. by vm_compute. Qed.

Example check_on_quiet_segment :
  run (scenario true false true 0) (CheckWithTimeout ipString hwString eth0 podIP gatewayIP 1000) 0%Z
  = (None, 1000%Z,
     [CallPing podIP gatewayIP eth0 1000; CallPing ParseIP_0_0_0_0 podIP eth0 1000;
      CallGratuitous podIP eth0]).
Proof. reflexivity. Qed.

Example check_on_duplicate :
  (run (scenario true true true 0) (CheckWithTimeout ipString hwString eth0 podIP gatewayIP 1000) 0%Z).1.1
  = Some (errorString
      "pod ip 10.0.0.5 duplicated, please check if ip 10.0.0.5 is occupied by other machines or containers, another hw addr is de:ad:be:ef:00:01").
Proof. reflexivity. Qed.




Lemma duplicate_probe_reply_is_failure_witness :
  (run (scenario true true true 0)
       (CheckWithTimeout ipString hwString eth0 podIP gatewayIP 1000) 0%Z).1.1
  = Some (duplicateErrorf ipString hwString podIP [xde; xad; xbe; xef; x00; x01]).
Proof.
  apply (duplicate_probe_reply_is_failure ipString hwString (scenario true true true 0)
           0%Z 0%Z 0%Z eth0 podIP gatewayIP 1000
           [x02; x42; xac; x11; x00; x01] [xde; xad; xbe; xef; x00; x01] None);
    reflexivity.
Defined.

Lemma gateway_failure_fails_fast_witness :
  (run (scenario false false true 0)
       (CheckWithTimeout ipString hwString eth0 podIP gatewayIP 1000) 0%Z).2
  = [CallPing podIP gatewayIP eth0 1000].
Proof.
  apply (gateway_failure_fails_fast ipString hwString (scenario false false true 0)
           0%Z 1000%Z eth0 podIP gatewayIP 1000 [] errTimeout).
  reflexivity.
Defined.

Lemma duplicate_probe_errors_all_proceed_witness :
  (run (scenario true false false 7)
       (CheckWithTimeout ipString hwString eth0 podIP gatewayIP 1000) 0%Z)
  = (Some (gratuitousErrorf ipString podIP errSend), 1007%Z,
     [CallPing podIP gatewayIP eth0 1000; CallPing ParseIP_0_0_0_0 podIP eth0 1000;
      CallGratuitous podIP eth0]).
Proof.
  apply (proj1 (duplicate_probe_errors_all_proceed ipString hwString
                  (scenario true false false 7) 0%Z 0%Z 1000%Z eth0 podIP gatewayIP 1000
                  [x02; x42; xac; x11; x00; x01] [] (Some errTimeout) eq_refl eq_refl)
           errTimeout eq_refl).
Defined.




(** *** The calls of a run *)

Section Calls.

Variable IP_String : IP → string.
Variable HardwareAddr_String : HardwareAddr → string.


(** The calls of a run are an initial segment of: gateway probe, duplicate
    probe, announcement; the gateway probe is always made, whatever the
    timeout (it is handed on as given, also when zero or negative). *)
Theorem calls_are_initial_segment {W : Type} (net : Net W) (w : W)
    ifi srcPod gateway timeout :
  let tr := (run net (CheckWithTimeout IP_String HardwareAddr_String ifi srcPod gateway timeout) w).2 in
  tr `prefix_of` [CallPing srcPod gateway ifi timeout;
                  CallPing ParseIP_0_0_0_0 srcPod ifi timeout;
                  CallGratuitous srcPod ifi] ∧
  tr !! 0%nat = Some (CallPing srcPod gateway ifi timeout).
Proof.
  intros tr. subst tr.
  destruct (run_cases IP_String HardwareAddr_String net w ifi srcPod gateway timeout)
    as [(?&?&?&?&E)|[(?&?&?&?&?&?&E)|[(?&?&?&?&?&?&?&?&?&?&E)|(?&?&?&?&?&?&?&?&?&E)]]];
    cbn zeta in E; rewrite E; cbn [snd]; (split; [|done]).
  - by exists [CallPing ParseIP_0_0_0_0 srcPod ifi timeout; CallGratuitous srcPod ifi].
  - by exists [CallGratuitous srcPod ifi].
  - by exists [].
  - by exists [].
Qed.

(** The announcement is sent exactly when the gateway answered and the
    duplicate probe returned an error; a nil result implies it was sent; and
    every call is made on the interface given, every probe with the timeout
    given. *)
Theorem announcement_iff_probes_passed {W : Type} (net : Net W) (w : W)
    ifi srcPod gateway timeout :
  let r := run net (CheckWithTimeout IP_String HardwareAddr_String ifi srcPod gateway timeout) w in
  (CallGratuitous srcPod ifi ∈ r.2 ↔
   ∃ hw0 w1 hw e w2,
     net_ping net srcPod gateway ifi timeout w = ((hw0, None), w1) ∧
     net_ping net ParseIP_0_0_0_0 srcPod ifi timeout w1 = ((hw, Some e), w2)) ∧
  (r.1.1 = None → CallGratuitous srcPod ifi ∈ r.2) ∧
  Forall (λ c, c = CallGratuitous srcPod ifi ∨ ∃ s d, c = CallPing s d ifi timeout) r.2.
Proof.
  intros r. subst r.
  assert (Hping : ∀ s d, CallPing s d ifi timeout = CallGratuitous srcPod ifi ∨
                         ∃ s' d', CallPing s d ifi timeout = CallPing s' d' ifi timeout).
  { intros s d. right. by exists s, d. }
  destruct (run_cases IP_String HardwareAddr_String net w ifi srcPod gateway timeout)
    as [(hw&e&w1&H1&E)|[(hw0&w1&hw&w2&H1&H2&E)|[(hw0&w1&hw&e&w2&e'&w3&H1&H2&H3&E)|(hw0&w1&hw&e&w2&w3&H1&H2&H3&E)]]];
    cbn zeta in E; rewrite E; cbn [fst snd]; unfold gatewayProbe, duplicateProbe, announcement.
  - split; [|split; [done|]].
    + split.
      * intros Hin. apply elem_of_cons in Hin as [Hin|Hin]; [discriminate|].
        by apply elem_of_nil in Hin.
      * intros (?&?&?&?&?&H&_). rewrite H1 in H. discriminate.
    + repeat (apply Forall_cons; split; [first [apply Hping | by left] |]); apply Forall_nil_2.
  - split; [|split; [done|]].
    + split.
      * intros Hin. apply elem_of_cons in Hin as [Hin|Hin]; [discriminate|].
        apply elem_of_cons in Hin as [Hin|Hin]; [discriminate|].
        by apply elem_of_nil in Hin.
      * intros (?&?&?&?&?&H&H'). rewrite H1 in H. injection H as <- <-.
        rewrite H2 in H'. discriminate.
    + repeat (apply Forall_cons; split; [first [apply Hping | by left] |]); apply Forall_nil_2.
  - split; [|split; [done|]].
    + split; [|intros _; do 2 apply list_elem_of_further; apply list_elem_of_here].
      intros _. by exists hw0, w1, hw, e, w2.
    + repeat (apply Forall_cons; split; [first [apply Hping | by left] |]); apply Forall_nil_2.
  - split; [|split].
    + split; [|intros _; do 2 apply list_elem_of_further; apply list_elem_of_here].
      intros _. by exists hw0, w1, hw, e, w2.
    + intros _. do 2 apply list_elem_of_further. apply list_elem_of_here.
    + repeat (apply Forall_cons; split; [first [apply Hping | by left] |]); apply Forall_nil_2.
Qed.

(** The text of the error tells the step that failed: two runs, on any link
    layers and for any arguments, that return errors with the same text made
    the same number of calls. *)
Theorem error_text_tells_failed_step {W W' : Type} (net : Net W) (net' : Net W') (w : W) (w' : W')
    ifi srcPod gateway timeout ifi' srcPod' gateway' timeout' e e' :
  (run net (CheckWithTimeout IP_String HardwareAddr_String ifi srcPod gateway timeout) w).1.1 = Some e →
  (run net' (CheckWithTimeout IP_String HardwareAddr_String ifi' srcPod' gateway' timeout') w').1.1 = Some e' →
  Error e = Error e' →
  length (run net (CheckWithTimeout IP_String HardwareAddr_String ifi srcPod gateway timeout) w).2 =
  length (run net' (CheckWithTimeout IP_String HardwareAddr_String ifi' srcPod' gateway' timeout') w').2.
Proof.
  intros He He' Heq.
  assert (Hee : e = e') by (destruct e, e'; cbn in Heq; by subst).
  subst e'.
  destruct (run_cases IP_String HardwareAddr_String net w ifi srcPod gateway timeout)
    as [(?&c1&?&?&E)|[(?&?&h1&?&?&?&E)|[(?&?&?&?&?&c1&?&?&?&?&E)|(?&?&?&?&?&?&?&?&?&E)]]];
    cbn zeta in E; rewrite E in He |- *; cbn in He; simplify_eq;
  destruct (run_cases IP_String HardwareAddr_String net' w' ifi' srcPod' gateway' timeout')
    as [(?&c2&?&?&E')|[(?&?&h2&?&?&?&E')|[(?&?&?&?&?&c2&?&?&?&?&E')|(?&?&?&?&?&?&?&?&?&E')]]];
    cbn zeta in E'; rewrite E' in He' |- *; cbn in He'; done.
Qed.

End Calls.

Lemma error_text_tells_failed_step_witness :
  length (run (scenario true true true 0)
            (CheckWithTimeout ipString hwString eth0 podIP gatewayIP 1000) 0%Z).2 =
  length (run (scenario true true false 5)
            (CheckWithTimeout ipString hwString eth1 podIP gatewayIP 20) 7%Z).2.
Proof.
  apply (error_text_tells_failed_step ipString hwString
           (scenario true true true 0) (scenario true true false 5) 0%Z 7%Z
           eth0 podIP gatewayIP 1000 eth1 podIP gatewayIP 20
           (duplicateErrorf ipString hwString podIP [xde; xad; xbe; xef; x00; x01])
           (duplicateErrorf ipString hwString podIP [xde; xad; xbe; xef; x00; x01]));
    reflexivity.
Defined.

End Arp.

(** ** Package controller: the event handler for RemoteVtep *)

Module Controller.

(** [multiclusterv1.RemoteVtep], with the fields the handler reads. *)
Record VTEPInfo : Type := mkVTEPInfo {
  IP : string;
  MAC : string
}.

Record RemoteVtepSpec : Type := mkRemoteVtepSpec {
  VTEPInfo_ : VTEPInfo;
  EndpointIPList : list string
}.

Record RemoteVtep : Type := mkRemoteVtep {
  Annotations : gmap string string;
  Spec : RemoteVtepSpec
}.

(** [event.UpdateEvent]; the handler asserts both objects to be RemoteVteps. *)
Record UpdateEvent : Type := mkUpdateEvent {
  ObjectOld : RemoteVtep;
  ObjectNew : RemoteVtep
}.

(** Indexing a Go map: the zero value when the key is absent. *)
Definition index (m : gmap string string) (key : string) : string := default "" (m !! key).

(** The work queue, as the log of the calls to [q.Add]: the items handed to
    it, oldest first.  What the queue of client-go then holds is its own
    business (it drops an item that is already pending) and is not
    modelled. *)
Definition workqueue : Type := list string.
Definition Add (q : workqueue) (item : string) : workqueue := q ++ [item].

(** Modelled from the spec: [isIPListEqual] is defined in another file of
    package controller; the endpoint address lists are compared position by
    position ("position-sensitive"), so two lists are equal when they have
    the same length and the same address at every index. *)
Fixpoint isIPListEqual (a b : list string) : bool :=
  match a, b with
  | [], [] => true
  | x :: a', y :: b' => bool_decide (x = y) && isIPListEqual a' b'
  | _, _ => false
  end.

Section Handler.

(** [constants.AnnotationNodeLocalVxlanIPList] and [ActionReconcileNode]. *)
Variable AnnotationNodeLocalVxlanIPList : string.
Variable ActionReconcileNode : string.

Definition Create (q : workqueue) : workqueue := Add q ActionReconcileNode.

Definition Update (evt : UpdateEvent) (q : workqueue) : workqueue :=
  let oldRemoteVtep := ObjectOld evt in
  let newRemoteVtep := ObjectNew evt in
  if bool_decide (IP (VTEPInfo_ (Spec oldRemoteVtep)) ≠ IP (VTEPInfo_ (Spec newRemoteVtep)))
     || bool_decide (MAC (VTEPInfo_ (Spec oldRemoteVtep)) ≠ MAC (VTEPInfo_ (Spec newRemoteVtep)))
     || bool_decide (index (Annotations oldRemoteVtep) AnnotationNodeLocalVxlanIPList
                     ≠ index (Annotations newRemoteVtep) AnnotationNodeLocalVxlanIPList)
     || negb (isIPListEqual (EndpointIPList (Spec oldRemoteVtep))
                            (EndpointIPList (Spec newRemoteVtep)))
  then Add q ActionReconcileNode
  else q.

Definition Delete (q : workqueue) : workqueue := Add q ActionReconcileNode.

(** The four things [Update] compares. *)
Definition vtepIP (v : RemoteVtep) : string := IP (VTEPInfo_ (Spec v)).
Definition vtepMAC (v : RemoteVtep) : string := MAC (VTEPInfo_ (Spec v)).
Definition nodeLocalVxlanIPList (v : RemoteVtep) : string :=
  index (Annotations v) AnnotationNodeLocalVxlanIPList.
Definition endpointIPList (v : RemoteVtep) : list string := EndpointIPList (Spec v).

Definition changed (old new : RemoteVtep) : Prop :=
  vtepIP old ≠ vtepIP new ∨
  vtepMAC old ≠ vtepMAC new ∨
  nodeLocalVxlanIPList old ≠ nodeLocalVxlanIPList new ∨
  endpointIPList old ≠ endpointIPList new.

Lemma isIPListEqual_true (a b : list string) : isIPListEqual a b = true ↔ a = b.
Proof.
  revert b. induction a as [|x a IH]; intros [|y b]; cbn; try (split; [discriminate|done]).
  - done.
  - rewrite andb_true_iff, bool_decide_eq_true, IH. split; [intros [-> ->]; done|].
    intros [= -> ->]. done.
Qed.

Lemma isIPListEqual_positions (a b : list string) :
  isIPListEqual a b = false ↔ ∃ i : nat, a !! i ≠ b !! i.
Proof.
  split.
  - revert b. induction a as [|x a IH]; intros [|y b]; cbn; try discriminate.
    + intros _. by exists 0%nat.
    + intros _. by exists 0%nat.
    + intros H. apply andb_false_iff in H as [H|H].
      * apply bool_decide_eq_false in H. exists 0%nat. cbn. congruence.
      * destruct (IH b H) as [i Hi]. by exists (S i).
  - intros [i Hi]. apply not_true_iff_false. rewrite isIPListEqual_true.
    intros ->. done.
Qed.

Lemma Update_changed evt q :
  changed (ObjectOld evt) (ObjectNew evt) → Update evt q = q ++ [ActionReconcileNode].
Proof.
  unfold changed, Update, vtepIP, vtepMAC, nodeLocalVxlanIPList, endpointIPList, Add.
  cbn zeta. intros H.
  destruct (isIPListEqual _ _) eqn:E.
  - apply isIPListEqual_true in E. repeat case_bool_decide; cbn; try done. tauto.
  - rewrite !orb_true_r. done.
Qed.

Lemma Update_unchanged evt q :
  ¬ changed (ObjectOld evt) (ObjectNew evt) → Update evt q = q.
Proof.
  unfold changed, Update, vtepIP, vtepMAC, nodeLocalVxlanIPList, endpointIPList, Add.
  cbn zeta. intros H.
  destruct (isIPListEqual _ _) eqn:E.
  - repeat case_bool_decide; cbn; try done; exfalso; apply H; tauto.
  - exfalso. apply H. do 3 right. intros Heq. apply isIPListEqual_true in Heq. congruence.
Qed.

(** C1: an Update event adds exactly one item, the node resync, to the queue
    if and only if the old and the new RemoteVtep differ in the VTEP address,
    the VTEP hardware address, the node-local address list (the annotation,
    compared as text) or the endpoint address list (compared index by index);
    when the four are equal the queue is left as it was. *)
Theorem Update_enqueues_iff_changed (evt : UpdateEvent) (q : workqueue) :
  let old := ObjectOld evt in
  let new := ObjectNew evt in
  (Update evt q = q ++ [ActionReconcileNode] ↔ changed old new) ∧
  (Update evt q = q ↔ ¬ changed old new) ∧
  (endpointIPList old ≠ endpointIPList new ↔
   ∃ i : nat, endpointIPList old !! i ≠ endpointIPList new !! i).
Proof.
  intros old new.
  assert (Hq : q ++ [ActionReconcileNode] ≠ q).
  { intros Heq. apply (f_equal length) in Heq. rewrite length_app in Heq. cbn in Heq. lia. }
  split; [|split].
  - destruct (decide (changed old new)) as [Hc|Hc].
    + by rewrite (Update_changed evt q Hc).
    + rewrite (Update_unchanged evt q Hc). split; [|done].
      intros Heq. symmetry in Heq. by apply Hq in Heq.
  - destruct (decide (changed old new)) as [Hc|Hc].
    + rewrite (Update_changed evt q Hc). split; [|done].
      intros Heq. by apply Hq in Heq.
    + by rewrite (Update_unchanged evt q Hc).
  - rewrite <- isIPListEqual_positions, <- not_true_iff_false, isIPListEqual_true. done.
Qed.

End Handler.

(** Examples, with a key and a queue item chosen for the occasion. *)
Definition vtepA : RemoteVtep :=
  mkRemoteVtep {[ "node-local-vxlan-ip-list" := "10.0.0.1,10.0.0.2" ]}
    (mkRemoteVtepSpec (mkVTEPInfo "192.168.0.1" "02:42:ac:11:00:02") ["10.1.0.1"; "10.1.0.2"]).
Definition vtepA_reordered : RemoteVtep :=
  mkRemoteVtep {[ "node-local-vxlan-ip-list" := "10.0.0.1,10.0.0.2" ]}
    (mkRemoteVtepSpec (mkVTEPInfo "192.168.0.1" "02:42:ac:11:00:02") ["10.1.0.2"; "10.1.0.1"]).
Definition vtepA_relabelled : RemoteVtep :=
  mkRemoteVtep {[ "node-local-vxlan-ip-list" := "10.0.0.1,10.0.0.2"; "note" := "x" ]}
    (mkRemoteVtepSpec (mkVTEPInfo "192.168.0.1" "02:42:ac:11:00:02") ["10.1.0.1"; "10.1.0.2"]).

Example Update_same_snapshot :
  Update "node-local-vxlan-ip-list" "ReconcileNode" (mkUpdateEvent vtepA vtepA) [] = [].
Proof. by vm_compute. Qed.

Example Update_unrelated_annotation :
  Update "node-local-vxlan-ip-list" "ReconcileNode" (mkUpdateEvent vtepA vtepA_relabelled) [] = [].
Proof. by vm_compute. Qed.

Example Update_reordered_endpoints :
  Update "node-local-vxlan-ip-list" "ReconcileNode" (mkUpdateEvent vtepA vtepA_reordered) []
  = ["ReconcileNode"].
Proof. by vm_compute. Qed.

(** *** Sequences of events, and the annotation map *)

(** [event.CreateEvent] and [event.DeleteEvent] carry the object. *)
Record CreateEvent : Type := mkCreateEvent { CreateObject : RemoteVtep }.
Record DeleteEvent : Type := mkDeleteEvent { DeleteObject : RemoteVtep }.

(** An event of the watch, as the controller runtime hands it to the method
    of its kind. *)
Inductive Event : Type :=
| OnCreate (evt : CreateEvent)
| OnUpdate (evt : UpdateEvent)
| OnDelete (evt : DeleteEvent).

Section Events.

Variable AnnotationNodeLocalVxlanIPList : string.
Variable ActionReconcileNode : string.

Definition handle (q : workqueue) (e : Event) : workqueue :=
  match e with
  | OnCreate _ => Create ActionReconcileNode q
  | OnUpdate evt => Update AnnotationNodeLocalVxlanIPList ActionReconcileNode evt q
  | OnDelete _ => Delete ActionReconcileNode q
  end.

Definition handleAll (q : workqueue) (es : list Event) : workqueue := foldl handle q es.

(** Whether an event makes its handler call [q.Add]. *)
Definition enqueues (e : Event) : bool :=
  match e with
  | OnUpdate evt =>
      bool_decide (changed AnnotationNodeLocalVxlanIPList (ObjectOld evt) (ObjectNew evt))
  | _ => true
  end.

Lemma handle_app q e :
  handle q e = q ++ (if enqueues e then [ActionReconcileNode] else []).
Proof.
  destruct e as [evt|evt|evt]; cbn; [done| |done].
  case_bool_decide as H.
  - by apply Update_changed.
  - rewrite app_nil_r. by apply Update_unchanged.
Qed.

(** Over a sequence of events the handlers call [q.Add] once for every
    Create, every Delete and every Update whose snapshots differ in a compared
    field, each time with the node resync, and at no other time: the log of
    calls grows by that many entries.  (How many items the queue then holds
    is decided by the queue.) *)
Theorem handleAll_appends_one_per_trigger (q : workqueue) (es : list Event) :
  handleAll q es = q ++ replicate (length (filter (λ e, enqueues e = true) es)) ActionReconcileNode.
Proof.
  unfold handleAll. revert q. induction es as [|e es IH]; intros q.
  - cbn. by rewrite app_nil_r.
  - change (foldl handle q (e :: es)) with (foldl handle (handle q e) es).
    rewrite IH, handle_app, filter_cons. destruct (enqueues e) eqn:E.
    + rewrite decide_True by done. cbn. by rewrite <- app_assoc.
    + rewrite decide_False by done. by rewrite app_nil_r.
Qed.

(** Setting or removing any annotation other than the node-local address
    list, with the spec unchanged, adds nothing to the queue. *)
Theorem Update_ignores_other_annotations (old : RemoteVtep) (k v : string) (q : workqueue) :
  k ≠ AnnotationNodeLocalVxlanIPList →
  Update AnnotationNodeLocalVxlanIPList ActionReconcileNode
    (mkUpdateEvent old (mkRemoteVtep (<[k := v]> (Annotations old)) (Spec old))) q = q ∧
  Update AnnotationNodeLocalVxlanIPList ActionReconcileNode
    (mkUpdateEvent old (mkRemoteVtep (delete k (Annotations old)) (Spec old))) q = q.
Proof.
  intros Hk. split; apply Update_unchanged; unfold changed, vtepIP, vtepMAC,
    nodeLocalVxlanIPList, endpointIPList, index; cbn.
  - rewrite lookup_insert_ne by done. tauto.
  - rewrite lookup_delete_ne by done. tauto.
Qed.

(** A missing node-local address list annotation reads as the empty text:
    when the old object has none, setting it to the empty text adds nothing
    to the queue and setting it to any other text adds the node resync. *)
Theorem Update_absent_annotation_reads_empty (old : RemoteVtep) (v : string) (q : workqueue) :
  Annotations old !! AnnotationNodeLocalVxlanIPList = None →
  Update AnnotationNodeLocalVxlanIPList ActionReconcileNode
    (mkUpdateEvent old
       (mkRemoteVtep (<[AnnotationNodeLocalVxlanIPList := v]> (Annotations old)) (Spec old))) q
  = if decide (v = "") then q else q ++ [ActionReconcileNode].
Proof.
  intros Hnone. case_decide as Hv.
  - apply Update_unchanged. unfold changed, vtepIP, vtepMAC,
      nodeLocalVxlanIPList, endpointIPList, index; cbn.
    rewrite lookup_insert_eq, Hnone. cbn. subst v. tauto.
  - apply Update_changed. unfold changed, vtepIP, vtepMAC,
      nodeLocalVxlanIPList, endpointIPList, index; cbn.
    rewrite lookup_insert_eq, Hnone. cbn. right; right; left. congruence.
Qed.

End Events.

Lemma Update_ignores_other_annotations_witness :
  Update "node-local-vxlan-ip-list" "ReconcileNode"
    (mkUpdateEvent vtepA
       (mkRemoteVtep (<["note" := "x"]> (Annotations vtepA)) (Spec vtepA))) ["ReconcileNode"]
  = ["ReconcileNode"].
Proof.
  apply (Update_ignores_other_annotations "node-local-vxlan-ip-list" "ReconcileNode"
           vtepA "note" "x" ["ReconcileNode"]).
  discriminate.
Defined.

Definition vtepBare : RemoteVtep :=
  mkRemoteVtep ∅ (mkRemoteVtepSpec (mkVTEPInfo "192.168.0.1" "02:42:ac:11:00:02") []).

Lemma Update_absent_annotation_reads_empty_witness :
  Update "node-local-vxlan-ip-list" "ReconcileNode"
    (mkUpdateEvent vtepBare
       (mkRemoteVtep (<["node-local-vxlan-ip-list" := "10.0.0.1"]> (Annotations vtepBare))
          (Spec vtepBare))) []
  = ["ReconcileNode"].
Proof.
  apply (Update_absent_annotation_reads_empty "node-local-vxlan-ip-list" "ReconcileNode"
           vtepBare "10.0.0.1" []).
  reflexivity.
Defined.

Example handleAll_example :
  handleAll "node-local-vxlan-ip-list" "ReconcileNode" []
    [OnCreate (mkCreateEvent vtepA); OnUpdate (mkUpdateEvent vtepA vtepA);
     OnUpdate (mkUpdateEvent vtepA vtepA_reordered); OnDelete (mkDeleteEvent vtepA_reordered)]
  = ["ReconcileNode"; "ReconcileNode"; "ReconcileNode"].
Proof. by vm_compute. Qed.

End Controller.

(** ** Address allocation and retention

    The allocator and the retention store are exercised by the pod controller
    integration suite (allocate, delete the pod, check the record is kept,
    recreate the pod, check the record is reused); their code lives in other
    packages.  This module models them from the design document. *)

Module Ipam.

(** Modelled from the spec: the address families ("v4/v6/dual-stack") and the
    network types ("type ∈ {Underlay, Overlay}") of the data model; the names
    are those the integration suite uses. *)
Inductive IPVersion : Type := IPv4 | IPv6.
Inductive NetworkType : Type := Underlay | Overlay.
(** Modelled from the spec: the families a request asks for
    ("criteria{networkType, families}"), one of the three values of the IP
    family annotation in the suite. *)
Inductive IPFamilyMode : Type := IPv4Only | IPv6Only | DualStack.

#[global] Instance IPVersion_eq_dec : EqDecision IPVersion.
Proof. solve_decision. Defined.
#[global] Instance NetworkType_eq_dec : EqDecision NetworkType.
Proof. solve_decision. Defined.

Definition families (m : IPFamilyMode) : list IPVersion :=
  match m with
  | IPv4Only => [IPv4]
  | IPv6Only => [IPv6]
  | DualStack => [IPv4; IPv6]
  end.

(** Modelled from the spec: "ReferredObject{kind, name, uid}"; in the suite
    it is a [networkingv1.ObjectMeta]. *)
Record ObjectMeta : Type := mkObjectMeta {
  Kind : string;
  Name : string;
  UID : string
}.

#[global] Instance ObjectMeta_eq_dec : EqDecision ObjectMeta.
Proof. solve_decision. Defined.
#[global] Instance ObjectMeta_countable : Countable ObjectMeta.
Proof.
  apply (inj_countable' (λ o, (Kind o, Name o, UID o)) (λ t, mkObjectMeta t.1.1 t.1.2 t.2)).
  by intros [].
Defined.

(** Modelled from the spec: "Network: identity, type". *)
Record Network : Type := mkNetwork {
  netName : string;
  netType : NetworkType
}.

(** Modelled from the spec: "Subnet: identity, parent Network reference,
    address family, CIDR range, set of excluded/reserved addresses"; the range
    is [cidrCount] addresses from [cidrFirst] on. *)
Record Subnet : Type := mkSubnet {
  subName : string;
  subNetwork : Network;
  subVersion : IPVersion;
  cidrFirst : N;
  cidrCount : N;
  excluded : list N
}.

(** Modelled from the spec: the Binding of a record, "current pod identifier
    (UID, name), current node name, a ReferredObject, and an optional
    Stateful{index}". *)
Record Binding : Type := mkBinding {
  PodUID : string;
  PodName : string;
  NodeName : string;
  ReferredObject : ObjectMeta;
  Stateful : option N
}.

(** Modelled from the spec: "AddressRecord: address value, family, MAC,
    Subnet reference, Network reference, and a Binding". *)
Record AddressRecord : Type := mkAddressRecord {
  Address : N;
  Version : IPVersion;
  MAC : N;
  SubnetRef : string;
  NetworkRef : string;
  binding : Binding
}.

(** Modelled from the spec: "WorkloadIdentity: the ReferredObject plus, for
    stateful workloads, the ordinal". *)
Record WorkloadIdentity : Type := mkWorkloadIdentity {
  referred : ObjectMeta;
  ordinal : option N
}.

#[global] Instance WorkloadIdentity_eq_dec : EqDecision WorkloadIdentity.
Proof. solve_decision. Defined.

(** Modelled from the spec: the workload a request is made for, as the suite
    creates it: pod UID, pod name, node, and the owning controller, if any. *)
Record Workload : Type := mkWorkload {
  podUID : string;
  podName : string;
  nodeName : string;
  owner : option ObjectMeta
}.

(** Modelled from the spec: the ordinal is "the integer suffix after the last
    separator" of the workload's name; the separator is the hyphen and the
    suffix is a non-empty run of decimal digits. *)
Definition digit (c : Ascii.ascii) : option N :=
  let n := Ascii.N_of_ascii c in
  if ((48 <=? n) && (n <=? 57))%N then Some (n - 48)%N else None.

(** Modelled from the spec: the value of a run of decimal digits. *)
Fixpoint parseDigits (acc : N) (s : string) : option N :=
  match s with
  | EmptyString => Some acc
  | String c s' =>
      match digit c with
      | Some d => parseDigits (10 * acc + d)%N s'
      | None => None
      end
  end.

(** Modelled from the spec: what follows "the last separator" of a name. *)
Fixpoint afterLastSeparator (s : string) : option string :=
  match s with
  | EmptyString => None
  | String c s' =>
      match afterLastSeparator s' with
      | Some t => Some t
      | None => if (Ascii.N_of_ascii c =? 45)%N then Some s' else None
      end
  end.

(** Modelled from the spec: "name pod-7 parses to stateful.index=7". *)
Definition parseOrdinal (name : string) : option N :=
  match afterLastSeparator name with
  | Some (String c t) => parseDigits 0 (String c t)
  | _ => None
  end.

(** Modelled from the spec: the ReferredObject of a pod without an owning
    controller is the pod itself; an identity is stateful when its
    ReferredObject "names a controller kind" (any kind but Pod) and the pod
    name "carries a parsable trailing ordinal". *)
Definition isControllerKind (o : ObjectMeta) : bool := bool_decide (Kind o ≠ "Pod").

(** Modelled from the spec: the WorkloadIdentity of a workload. *)
Definition identityOf (w : Workload) : WorkloadIdentity :=
  match owner w with
  | Some o =>
      mkWorkloadIdentity o (if isControllerKind o then parseOrdinal (podName w) else None)
  | None => mkWorkloadIdentity (mkObjectMeta "Pod" (podName w) (podUID w)) None
  end.

(** The identity a record belongs to, read off its binding. *)
Definition ownerOf (r : AddressRecord) : WorkloadIdentity :=
  mkWorkloadIdentity (ReferredObject (binding r)) (Stateful (binding r)).

(** An address of a subnet. *)
Definition slot (r : AddressRecord) : string * N := (SubnetRef r, Address r).

(** Modelled from the spec: the allocator "owns per-subnet free/used address
    bookkeeping" ([used]) and the records bound to a live workload
    ([active]); the retention store keeps records "keyed by (ReferredObject,
    ordinal)" ([retained]); "a single MAC is generated once" per allocation
    ([nextMAC] is the next one to hand out). *)
Record Allocator : Type := mkAllocator {
  used : gset (string * N);
  active : list AddressRecord;
  retained : gmap (ObjectMeta * N) (list AddressRecord);
  nextMAC : N
}.

Definition empty : Allocator := mkAllocator ∅ [] ∅ 0.

(** Modelled from the spec: the failure modes of the allocator. *)
Inductive AllocError : Type :=
| ExhaustedPool
| NoEligibleSubnet
| RetentionLookupInconsistent.

(** Modelled from the spec: "criteria{networkType, families}". *)
Record Criteria : Type := mkCriteria {
  networkType : NetworkType;
  ipFamily : IPFamilyMode
}.

(** Modelled from the spec: "filter eligible Subnets by networkType and
    family; pick one subnet with remaining capacity" (the first one in the
    order given); "obtain one free address from that subnet's pool" (the
    lowest address of the range that is neither excluded nor used). *)
Definition eligible (nt : NetworkType) (v : IPVersion) (subnets : list Subnet) : list Subnet :=
  filter (λ s, netType (subNetwork s) = nt ∧ subVersion s = v) subnets.

Definition addressesOf (s : Subnet) : list N :=
  (λ i, (cidrFirst s + N.of_nat i)%N) <$> seq 0 (N.to_nat (cidrCount s)).

Definition isFree (u : gset (string * N)) (s : Subnet) (a : N) : bool :=
  bool_decide ((subName s, a) ∉ u) && bool_decide (a ∉ excluded s).

Definition nextFree (u : gset (string * N)) (s : Subnet) : option N :=
  List.find (isFree u s) (addressesOf s).

Fixpoint pick (u : gset (string * N)) (ss : list Subnet) : option (Subnet * N) :=
  match ss with
  | [] => None
  | s :: ss' =>
      match nextFree u s with
      | Some a => Some (s, a)
      | None => pick u ss'
      end
  end.

Definition allocateOne (u : gset (string * N)) (nt : NetworkType) (v : IPVersion)
    (subnets : list Subnet) : AllocError + (Subnet * N) :=
  match eligible nt v subnets with
  | [] => inl NoEligibleSubnet
  | ss =>
      match pick u ss with
      | Some sa => inr sa
      | None => inl ExhaustedPool
      end
  end.

(** Modelled from the spec: the binding of a freshly allocated record names
    the pod, its node, and the identity it was allocated for. *)
Definition bindingFor (w : Workload) : Binding :=
  let id := identityOf w in
  mkBinding (podUID w) (podName w) (nodeName w) (referred id) (ordinal id).

(** Modelled from the spec: "for each requested family ... build an
    AddressRecord referencing the chosen Subnet/Network"; "a single MAC is
    generated once and attached to both family records". *)
Fixpoint allocateFresh (w : Workload) (mac : N) (nt : NetworkType) (subnets : list Subnet)
    (vs : list IPVersion) (u : gset (string * N))
    : AllocError + (list AddressRecord * gset (string * N)) :=
  match vs with
  | [] => inr ([], u)
  | v :: vs' =>
      match allocateOne u nt v subnets with
      | inl e => inl e
      | inr (s, a) =>
          match allocateFresh w mac nt subnets vs' ({[ (subName s, a) ]} ∪ u) with
          | inl e => inl e
          | inr (rs, u') =>
              inr (mkAddressRecord a v mac (subName s) (netName (subNetwork s)) (bindingFor w) :: rs,
                   u')
          end
      end
  end.

(** Modelled from the spec: [Lookup(identity) → record|absent] "returns the
    stored record only if the key matches exactly"; an identity without
    ordinal has nothing retained. *)
Definition Lookup (st : Allocator) (id : WorkloadIdentity) : option (list AddressRecord) :=
  match ordinal id with
  | Some k => retained st !! (referred id, k)
  | None => None
  end.

(** Modelled from the spec: a retained record "is rebound
    (PodUID/PodName/NodeName updated)". *)
Definition rebind (w : Workload) (r : AddressRecord) : AddressRecord :=
  mkAddressRecord (Address r) (Version r) (MAC r) (SubnetRef r) (NetworkRef r)
    (mkBinding (podUID w) (podName w) (nodeName w)
       (ReferredObject (binding r)) (Stateful (binding r))).

(** Modelled from the spec: Release "clears only binding's transient fields
    (PodUID, PodName-stays, NodeName)". *)
Definition retain (r : AddressRecord) : AddressRecord :=
  mkAddressRecord (Address r) (Version r) (MAC r) (SubnetRef r) (NetworkRef r)
    (mkBinding "" (PodName (binding r)) ""
       (ReferredObject (binding r)) (Stateful (binding r))).

(** Modelled from the spec: "Before allocating fresh, AddressAllocator must
    query RetentionStore using the requested WorkloadIdentity; if a retained
    record (or pair, for dual-stack) exists, it is rebound and returned
    instead of consuming a new address."  What is retained serves the request
    when it has one record per requested family; the spec does not say what
    happens otherwise, and the request is then refused.  A fresh allocation
    either yields a record for every requested family or changes nothing. *)
Definition Allocate (st : Allocator) (w : Workload) (c : Criteria) (subnets : list Subnet)
    : AllocError + (list AddressRecord * Allocator) :=
  let id := identityOf w in
  match Lookup st id, ordinal id with
  | Some rs, Some k =>
      if decide (Version <$> rs = families (ipFamily c)) then
        let rs' := rebind w <$> rs in
        inr (rs', mkAllocator (used st) (active st ++ rs')
                    (delete (referred id, k) (retained st)) (nextMAC st))
      else inl RetentionLookupInconsistent
  | _, _ =>
      match allocateFresh w (nextMAC st) (networkType c) subnets (families (ipFamily c)) (used st) with
      | inl e => inl e
      | inr (rs, u') =>
          inr (rs, mkAllocator u' (active st ++ rs) (retained st) (N.succ (nextMAC st)))
      end
  end.

(** The addresses of a list of records. *)
Definition slots (rs : list AddressRecord) : gset (string * N) := list_to_set (slot <$> rs).

(** Modelled from the spec: "for non-stateful identities, Release immediately
    returns the address to the subnet's free pool and discards the record.
    For stateful identities, Release instead clears only binding's transient
    fields and hands the record to RetentionStore"; Retain "stores the
    AddressRecord keyed by (ReferredObject, ordinal)".  An identity that
    holds no record is left as it is. *)

Definition Release (st : Allocator) (id : WorkloadIdentity) : Allocator :=
  let mine := filter (λ r, ownerOf r = id) (active st) in
  let others := filter (λ r, ownerOf r ≠ id) (active st) in
  match ordinal id with
  | Some k =>
      match mine with
      | [] => st
      | _ =>
          mkAllocator (used st) others
            (<[ (referred id, k) := retain <$> mine ]> (retained st)) (nextMAC st)
      end
  | None => mkAllocator (used st ∖ slots mine) others (retained st) (nextMAC st)
  end.

(** Modelled from the spec: "Purge removes the retained record and returns
    its address(es) to the owning subnet's free pool". *)
Definition Purge (st : Allocator) (id : WorkloadIdentity) : Allocator :=
  match Lookup st id, ordinal id with
  | Some rs, Some k =>
      mkAllocator (used st ∖ slots rs) (active st)
        (delete (referred id, k) (retained st)) (nextMAC st)
  | _, _ => st
  end.

(** The operations of the allocator as the external workflow issues them. *)
Inductive Op : Type :=
| OpAllocate (w : Workload) (c : Criteria) (subnets : list Subnet)
| OpRelease (id : WorkloadIdentity)
| OpPurge (id : WorkloadIdentity).

(** The state after an operation and the records it returned. *)
Definition step (st : Allocator) (op : Op) : Allocator * list AddressRecord :=
  match op with
  | OpAllocate w c subnets =>
      match Allocate st w c subnets with
      | inr (rs, st') => (st', rs)
      | inl _ => (st, [])
      end
  | OpRelease id => (Release st id, [])
  | OpPurge id => (Purge st id, [])
  end.

(** An identity is idle when no record is bound to it. *)
Definition idle (st : Allocator) (id : WorkloadIdentity) : Prop :=
  ∀ r, r ∈ active st → ownerOf r ≠ id.

(** The workflow asks for addresses once per workload: Allocate is issued for
    idle identities only. *)
Definition admissible (st : Allocator) (op : Op) : Prop :=
  match op with
  | OpAllocate w _ _ => idle st (identityOf w)
  | _ => True
  end.

(** [execution st ops st' out]: the admissible operations [ops] lead from
    [st] to [st'] and return the records [out]. *)
Inductive execution : Allocator → list Op → Allocator → list AddressRecord → Prop :=
| execution_nil st : execution st [] st []
| execution_cons st op ops st' out :
    admissible st op →
    execution (step st op).1 ops st' out →
    execution st (op :: ops) st' ((step st op).2 ++ out).

(** The records held at a place: bound to live workloads ([None]) or retained
    under a key. *)
Definition recordsAt (st : Allocator) (o : option (ObjectMeta * N)) : list AddressRecord :=
  match o with
  | None => active st
  | Some k => default [] (retained st !! k)
  end.

Definition keyIdentity (k : ObjectMeta * N) : WorkloadIdentity :=
  mkWorkloadIdentity k.1 (Some k.2).

(** The invariant of the allocator: every held record's address is marked
    used; no address of a subnet is held twice, at one place or at two;
    retained records are filed under the identity in their binding; the
    records held at one place for one identity share their MAC. *)
Record wf (st : Allocator) : Prop := mkWf {
  wf_used : ∀ o r, r ∈ recordsAt st o → slot r ∈ used st;
  wf_nodup : ∀ o, NoDup (slot <$> recordsAt st o);
  wf_apart : ∀ o1 o2 r1 r2,
    r1 ∈ recordsAt st o1 → r2 ∈ recordsAt st o2 → slot r1 = slot r2 → o1 = o2;
  wf_keyed : ∀ k r, r ∈ recordsAt st (Some k) → ownerOf r = keyIdentity k;
  wf_mac : ∀ o r1 r2,
    r1 ∈ recordsAt st o → r2 ∈ recordsAt st o → ownerOf r1 = ownerOf r2 → MAC r1 = MAC r2
}.

(** An operation that leaves alone what is retained for [id]. *)
Definition foreign (id : WorkloadIdentity) (op : Op) : Prop :=
  match op with
  | OpAllocate w _ _ => identityOf w ≠ id
  | OpRelease _ => True
  | OpPurge id' => id' ≠ id
  end.

(** What rebinding to [w] keeps of a record and what it sets. *)
Definition rebound (w : Workload) (r1 r2 : AddressRecord) : Prop :=
  Address r2 = Address r1 ∧ MAC r2 = MAC r1 ∧ Version r2 = Version r1 ∧
  SubnetRef r2 = SubnetRef r1 ∧ NetworkRef r2 = NetworkRef r1 ∧
  ReferredObject (binding r2) = ReferredObject (binding r1) ∧
  Stateful (binding r2) = Stateful (binding r1) ∧
  PodUID (binding r2) = podUID w ∧ PodName (binding r2) = podName w ∧
  NodeName (binding r2) = nodeName w.

(** What retaining keeps of a record and what it clears. *)
Definition keptOnRelease (r r' : AddressRecord) : Prop :=
  PodUID (binding r') = "" ∧ NodeName (binding r') = "" ∧
  PodName (binding r') = PodName (binding r) ∧
  ReferredObject (binding r') = ReferredObject (binding r) ∧
  Stateful (binding r') = Stateful (binding r) ∧
  Address r' = Address r ∧ Version r' = Version r ∧ MAC r' = MAC r ∧
  NetworkRef r' = NetworkRef r ∧ SubnetRef r' = SubnetRef r.


Lemma slot_rebind w r : slot (rebind w r) = slot r.
Proof. reflexivity. Qed.
Lemma slot_retain r : slot (retain r) = slot r.
Proof. reflexivity. Qed.
Lemma ownerOf_rebind w r : ownerOf (rebind w r) = ownerOf r.
Proof. reflexivity. Qed.
Lemma ownerOf_retain r : ownerOf (retain r) = ownerOf r.
Proof. reflexivity. Qed.
Lemma rebind_retain w r : rebind w (retain r) = rebind w r.
Proof. reflexivity. Qed.

Lemma slot_fmap_rebind w (rs : list AddressRecord) : slot <$> (rebind w <$> rs) = slot <$> rs.
Proof. rewrite <- list_fmap_compose. reflexivity. Qed.
Lemma slot_fmap_retain (rs : list AddressRecord) : slot <$> (retain <$> rs) = slot <$> rs.
Proof. rewrite <- list_fmap_compose. reflexivity. Qed.

Lemma keyIdentity_ordinal id k : ordinal id = Some k → keyIdentity (referred id, k) = id.
Proof. destruct id as [o n]. cbn. by intros ->. Qed.

Lemma keyIdentity_inj k1 k2 : keyIdentity k1 = keyIdentity k2 → k1 = k2.
Proof. destruct k1, k2. unfold keyIdentity. cbn. by intros [= -> ->]. Qed.

Lemma nextFree_Some u s a : nextFree u s = Some a → (subName s, a) ∉ u.
Proof.
  unfold nextFree. intros H. apply find_some in H as [_ H].
  unfold isFree in H. apply andb_true_iff in H as [H _].
  by apply bool_decide_eq_true in H.
Qed.

Lemma pick_Some u ss s a : pick u ss = Some (s, a) → s ∈ ss ∧ ((subName s, a) ∉ u).
Proof.
  induction ss as [|s0 ss IH]; cbn; [discriminate|].
  destruct (nextFree u s0) as [a0|] eqn:E.
  - intros [= -> ->]. split; [apply list_elem_of_here | apply nextFree_Some; done].
  - intros H. destruct (IH H) as [? ?]. split; [apply list_elem_of_further; done | done].
Qed.

Lemma allocateOne_inr u nt v subnets s a :
  allocateOne u nt v subnets = inr (s, a) →
((subName s, a) ∉ u) ∧ subVersion s = v ∧ netType (subNetwork s) = nt ∧ s ∈ subnets.
Proof.
  unfold allocateOne. destruct (eligible nt v subnets) as [|s0 ss] eqn:E; [discriminate|].
  destruct (pick u (s0 :: ss)) as [[s' a']|] eqn:P; [|discriminate].
  intros [= -> ->]. apply pick_Some in P as [Hin Hfree].
  rewrite <- E in Hin. unfold eligible in Hin. apply list_elem_of_filter in Hin as [[? ?] ?].
  done.
Qed.

Lemma allocateFresh_inr w mac nt subnets vs u rs u' :
  allocateFresh w mac nt subnets vs u = inr (rs, u') →
  Version <$> rs = vs ∧ u' = slots rs ∪ u ∧ NoDup (slot <$> rs) ∧
  ∀ r, r ∈ rs → (slot r ∉ u) ∧ MAC r = mac ∧ binding r = bindingFor w.
Proof.
  revert u rs u'. induction vs as [|v vs IH]; intros u rs u'; cbn.
  - intros [= <- <-]. split; [done|]. split; [unfold slots; cbn; by rewrite (left_id_L ∅ (∪))|].
    split; [apply NoDup_nil_2|]. intros r Hr. by apply elem_of_nil in Hr.
  - destruct (allocateOne u nt v subnets) as [e|[s a]] eqn:E1; [discriminate|].
    destruct (allocateFresh w mac nt subnets vs ({[(subName s, a)]} ∪ u)) as [e|[rs1 u1]] eqn:E2;
      [discriminate|].
    intros [= <- <-]. apply allocateOne_inr in E1 as (Hfree & Hv & _ & _).
    destruct (IH _ _ _ E2) as (Hvs & Hu & Hnd & Hall).
    split; [cbn; by rewrite Hvs|].
    split; [rewrite Hu; unfold slots; cbn; by rewrite (assoc_L (∪)), (comm_L (∪) (list_to_set _))|].
    split.
    + cbn. constructor; [|done]. intros Hin. apply list_elem_of_fmap in Hin as (r & Hr & Hin).
      destruct (Hall r Hin) as (Hn & _). apply Hn. rewrite <- Hr. unfold slot. cbn.
      apply elem_of_union_l. by apply elem_of_singleton.
    + intros r [->|Hin]%elem_of_cons; [done|].
      destruct (Hall r Hin) as (Hn & ? & ?). split; [|done].
      intros Hu'. apply Hn. by apply elem_of_union_r.
Qed.

Lemma Allocate_inr st w c subnets rs st' :
  Allocate st w c subnets = inr (rs, st') →
  (∃ k rs0,
     ordinal (identityOf w) = Some k ∧
     retained st !! (referred (identityOf w), k) = Some rs0 ∧
     Version <$> rs0 = families (ipFamily c) ∧
     rs = rebind w <$> rs0 ∧
     st' = mkAllocator (used st) (active st ++ rs)
             (delete (referred (identityOf w), k) (retained st)) (nextMAC st)) ∨
  (Lookup st (identityOf w) = None ∧
   ∃ u',
     allocateFresh w (nextMAC st) (networkType c) subnets (families (ipFamily c)) (used st)
       = inr (rs, u') ∧
     st' = mkAllocator u' (active st ++ rs) (retained st) (N.succ (nextMAC st))).
Proof.
  unfold Allocate, Lookup.
  destruct (ordinal (identityOf w)) as [k|] eqn:Ek.
  - destruct (retained st !! (referred (identityOf w), k)) as [rs0|] eqn:Er.
    + case_decide as Hv; [|discriminate]. intros [= <- <-]. left. by exists k, rs0.
    + destruct (allocateFresh _ _ _ _ _ _) as [e|[rs1 u']] eqn:Ef; [discriminate|].
      intros [= <- <-]. right. split; [done|]. by exists u'.
  - destruct (allocateFresh _ _ _ _ _ _) as [e|[rs1 u']] eqn:Ef; [discriminate|].
    intros [= <- <-]. right. split; [done|]. by exists u'.
Qed.

Lemma NoDup_fmap_filter {A B : Type} (f : A → B) (P : A → Prop) `{!∀ x, Decision (P x)}
    (l : list A) :
  NoDup (f <$> l) → NoDup (f <$> filter P l).
Proof. intros Hnd. eapply sublist_NoDup; [exact Hnd | apply fmap_sublist, sublist_filter]. Qed.

Lemma NoDup_fmap_eq {A B : Type} (f : A → B) (l : list A) (x y : A) :
  NoDup (f <$> l) → x ∈ l → y ∈ l → f x = f y → x = y.
Proof.
  induction l as [|a l IH]; cbn; [by intros _ ?%elem_of_nil|].
  intros Hnd. apply NoDup_cons in Hnd as [Ha Hnd].
  intros [->|Hx]%elem_of_cons [->|Hy]%elem_of_cons Hf; [done| | |by apply IH].
  - exfalso. apply Ha. rewrite Hf. by apply list_elem_of_fmap_2.
  - exfalso. apply Ha. rewrite <- Hf. by apply list_elem_of_fmap_2.
Qed.

Lemma wf_empty : wf empty.
Proof.
  split.
  - intros [k|] r; cbn; [rewrite lookup_empty|]; cbn; by intros ?%elem_of_nil.
  - intros [k|]; cbn; [rewrite lookup_empty|]; cbn; apply NoDup_nil_2.
  - intros [k|] o2 r1 r2; cbn; [rewrite lookup_empty|]; cbn; by intros ?%elem_of_nil.
  - intros k r; cbn; rewrite lookup_empty; cbn; by intros ?%elem_of_nil.
  - intros [k|] r1 r2; cbn; [rewrite lookup_empty|]; cbn; by intros ?%elem_of_nil.
Qed.

(** Shrinking what is held keeps the invariant, as long as what stays held
    stays marked used. *)
Lemma wf_shrink st st' :
  wf st →
  (∀ o, recordsAt st' o `sublist_of` recordsAt st o) →
  (∀ o r, r ∈ recordsAt st' o → slot r ∈ used st') →
  wf st'.
Proof.
  intros [Hu Hn Ha Hk Hm] Hsub Hused.
  assert (Hin : ∀ o r, r ∈ recordsAt st' o → r ∈ recordsAt st o).
  { intros o r Hr. eapply elem_of_sublist; [exact Hr | apply Hsub]. }
  split.
  - done.
  - intros o. eapply sublist_NoDup; [apply Hn | apply fmap_sublist, Hsub].
  - intros o1 o2 r1 r2 H1 H2. apply Ha; by apply Hin.
  - intros k r Hr. apply Hk. by apply Hin.
  - intros o r1 r2 H1 H2. apply (Hm o); by apply Hin.
Qed.

Lemma elem_of_slots r rs : slot r ∈ slots rs ↔ ∃ r0, r0 ∈ rs ∧ slot r0 = slot r.
Proof.
  unfold slots. rewrite elem_of_list_to_set, list_elem_of_fmap. split.
  - intros (r0 & Heq & Hin). by exists r0.
  - intros (r0 & Hin & Heq). by exists r0.
Qed.

Lemma recordsAt_delete (u : gset (string * N)) (a : list AddressRecord)
    (m : gmap (ObjectMeta * N) (list AddressRecord)) (n : N) (K : ObjectMeta * N)
    (o : option (ObjectMeta * N)) :
  recordsAt (mkAllocator u a (delete K m) n) o =
  match o with
  | None => a
  | Some k => if decide (K = k) then [] else default [] (m !! k)
  end.
Proof. destruct o as [k|]; cbn; [|done]. rewrite lookup_delete. by case_decide. Qed.

Lemma recordsAt_insert (u : gset (string * N)) (a : list AddressRecord)
    (m : gmap (ObjectMeta * N) (list AddressRecord)) (n : N) (K : ObjectMeta * N)
    (rs : list AddressRecord) (o : option (ObjectMeta * N)) :
  recordsAt (mkAllocator u a (<[K := rs]> m) n) o =
  match o with
  | None => a
  | Some k => if decide (K = k) then rs else default [] (m !! k)
  end.
Proof. destruct o as [k|]; cbn; [|done]. rewrite lookup_insert. by case_decide. Qed.

Lemma recordsAt_retained st k rs : retained st !! k = Some rs → recordsAt st (Some k) = rs.
Proof. cbn. by intros ->. Qed.

Lemma wf_Purge st id : wf st → wf (Purge st id).
Proof.
  intros Hwf. unfold Purge, Lookup.
  destruct (ordinal id) as [k|] eqn:Ek; [|done].
  destruct (retained st !! (referred id, k)) as [rs|] eqn:Er; [|done].
  apply (wf_shrink st); [done|..].
  - intros o. rewrite recordsAt_delete. destruct o as [k'|]; [|done].
    case_decide; [apply sublist_nil_l | done].
  - intros o r Hr. cbn [used].
    assert (Hold : r ∈ recordsAt st o).
    { rewrite recordsAt_delete in Hr. destruct o as [k'|]; [|done].
      case_decide; [by apply elem_of_nil in Hr | done]. }
    apply elem_of_difference. split; [by eapply wf_used|].
    intros (r0 & Hr0 & Heq)%elem_of_slots.
    assert (Ho : Some (referred id, k) = o).
    { eapply (wf_apart st Hwf _ _ r0 r); [|done..]. by rewrite (recordsAt_retained _ _ rs). }
    subst o. rewrite recordsAt_delete in Hr. rewrite decide_True in Hr by done.
    by apply elem_of_nil in Hr.
Qed.

Lemma elem_of_mine st id r :
  r ∈ filter (λ r, ownerOf r = id) (active st) ↔ ownerOf r = id ∧ r ∈ active st.
Proof. exact (list_elem_of_filter (λ r, ownerOf r = id) (active st) r). Qed.

Lemma elem_of_others st id r :
  r ∈ filter (λ r, ownerOf r ≠ id) (active st) ↔ ownerOf r ≠ id ∧ r ∈ active st.
Proof. exact (list_elem_of_filter (λ r, ownerOf r ≠ id) (active st) r). Qed.

Lemma others_mine_apart st id r m :
  wf st →
  r ∈ filter (λ r, ownerOf r ≠ id) (active st) →
  m ∈ filter (λ r, ownerOf r = id) (active st) →
  slot r ≠ slot m.
Proof.
  intros Hwf [Hr Hra]%elem_of_others [Hm Hma]%elem_of_mine Heq.
  apply Hr. rewrite <- Hm. f_equal.
  by apply (NoDup_fmap_eq slot (active st) r m (wf_nodup st Hwf None)).
Qed.

Lemma wf_Release_stateful st id k :
  wf st →
  ordinal id = Some k →
  wf (mkAllocator (used st) (filter (λ r, ownerOf r ≠ id) (active st))
        (<[(referred id, k) := retain <$> filter (λ r, ownerOf r = id) (active st)]>
           (retained st))
        (nextMAC st)).
Proof.
  intros Hwf Ek.
  set (mine := filter (λ r, ownerOf r = id) (active st)).
  set (others := filter (λ r, ownerOf r ≠ id) (active st)).
  assert (Hdisj : ∀ r m, r ∈ others → m ∈ mine → slot r ≠ slot m).
  { intros r m. by apply others_mine_apart. }
  assert (Hkey : keyIdentity (referred id, k) = id) by by apply keyIdentity_ordinal.
  split.
  - intros o r. rewrite recordsAt_insert. cbn [used]. destruct o as [k'|].
    + case_decide as Hk.
      * intros (m & -> & [_ Hm]%elem_of_mine)%list_elem_of_fmap.
         rewrite slot_retain. by apply (wf_used st Hwf None).
      * apply (wf_used st Hwf (Some k')).
    + intros [_ Hr]%elem_of_others. by apply (wf_used st Hwf None).
  - intros o. rewrite recordsAt_insert. destruct o as [k'|].
    + case_decide as Hk; [|apply (wf_nodup st Hwf (Some k'))].
      rewrite slot_fmap_retain. apply NoDup_fmap_filter, (wf_nodup st Hwf None).
    + apply NoDup_fmap_filter, (wf_nodup st Hwf None).
  - assert (Hcase : ∀ o r, r ∈ recordsAt
              (mkAllocator (used st) others
                 (<[(referred id, k):=retain <$> mine]> (retained st)) (nextMAC st)) o →
            (o = None ∧ r ∈ others) ∨
            (o = Some (referred id, k) ∧ ∃ m, m ∈ mine ∧ slot r = slot m) ∨
            (∃ k', o = Some k' ∧ k' ≠ (referred id, k) ∧ r ∈ recordsAt st o)).
    { intros o r. rewrite recordsAt_insert. destruct o as [k'|]; [|by left].
      case_decide as Hk.
      - subst k'. intros (m & -> & Hm)%list_elem_of_fmap. right; left.
        split; [done|]. by exists m.
      - intros Hr. right; right. exists k'. by repeat split. }
    intros o1 o2 r1 r2 H1 H2 Heq.
    destruct (Hcase _ _ H1) as [[-> Hr1]|[[-> (m1 & Hm1 & Hs1)]|(k1 & -> & Hk1 & Hr1)]];
    destruct (Hcase _ _ H2) as [[-> Hr2]|[[-> (m2 & Hm2 & Hs2)]|(k2 & -> & Hk2 & Hr2)]];
      try done.
    + exfalso. eapply Hdisj; [exact Hr1 | exact Hm2 | congruence].
    + apply elem_of_others in Hr1 as [_ Hr1].
      by apply (wf_apart st Hwf None (Some k2) r1 r2).
    + exfalso. eapply Hdisj; [exact Hr2 | exact Hm1 | congruence].
    + exfalso. apply elem_of_mine in Hm1 as [_ Hm1].
      assert (None = Some k2); [|done].
      apply (wf_apart st Hwf None (Some k2) m1 r2); [done..|congruence].
    + apply elem_of_others in Hr2 as [_ Hr2].
      by apply (wf_apart st Hwf (Some k1) None r1 r2).
    + exfalso. apply elem_of_mine in Hm2 as [_ Hm2].
      assert (Some k1 = None); [|done].
      apply (wf_apart st Hwf (Some k1) None r1 m2); [done..|congruence].
    + by apply (wf_apart st Hwf (Some k1) (Some k2) r1 r2).
  - intros k' r. rewrite recordsAt_insert. case_decide as Hk.
    + subst k'. intros (m & -> & [Hm _]%elem_of_mine)%list_elem_of_fmap.
      by rewrite ownerOf_retain, Hkey.
    + apply (wf_keyed st Hwf k').
  - intros o r1 r2. rewrite recordsAt_insert. destruct o as [k'|].
    + case_decide as Hk; [|apply (wf_mac st Hwf (Some k'))].
      intros (m1 & -> & [Ho1 Hm1]%elem_of_mine)%list_elem_of_fmap
             (m2 & -> & [Ho2 Hm2]%elem_of_mine)%list_elem_of_fmap _.
      cbn. apply (wf_mac st Hwf None); [done..|congruence].
    + intros [_ H1]%elem_of_others [_ H2]%elem_of_others.
      by apply (wf_mac st Hwf None).
Qed.

Lemma wf_Release st id : wf st → wf (Release st id).
Proof.
  intros Hwf. unfold Release.
  destruct (ordinal id) as [k|] eqn:Ek.
  - destruct (filter (λ r, ownerOf r = id) (active st)) as [|m0 mine'] eqn:Emine; [done|].
    rewrite <- Emine. by apply wf_Release_stateful.
  - apply (wf_shrink st); [done|..].
    + intros [k'|]; cbn; [done|]. apply sublist_filter.
    + intros o r Hr. cbn [used]. apply elem_of_difference. split.
      * apply (wf_used st Hwf o). destruct o as [k'|]; [done|].
        cbn in Hr. by apply elem_of_others in Hr as [_ Hr].
      * intros (m & Hm & Heq)%elem_of_slots. destruct o as [k'|].
        -- apply elem_of_mine in Hm as [_ Hm].
           assert (None = Some k'); [|done].
           by apply (wf_apart st Hwf None (Some k') m r).
        -- cbn in Hr. eapply (others_mine_apart st id r m); [done | exact Hr | exact Hm | congruence].
Qed.

Lemma ownerOf_bindingFor w r : binding r = bindingFor w → ownerOf r = identityOf w.
Proof. unfold ownerOf. intros ->. cbn. by destruct (identityOf w). Qed.

Lemma wf_rebind st w k rs0 :
  wf st →
  idle st (identityOf w) →
  ordinal (identityOf w) = Some k →
  retained st !! (referred (identityOf w), k) = Some rs0 →
  wf (mkAllocator (used st) (active st ++ (rebind w <$> rs0))
        (delete (referred (identityOf w), k) (retained st)) (nextMAC st)).
Proof.
  intros Hwf Hidle Ek Er.
  set (K := (referred (identityOf w), k)) in *.
  assert (Hkey : keyIdentity K = identityOf w) by by apply keyIdentity_ordinal.
  assert (HrsK : recordsAt st (Some K) = rs0) by by apply recordsAt_retained.
  assert (Hcase : ∀ o r, r ∈ recordsAt
            (mkAllocator (used st) (active st ++ (rebind w <$> rs0))
               (delete K (retained st)) (nextMAC st)) o →
          (o = None ∧ r ∈ active st) ∨
          (o = None ∧ ∃ r0, r0 ∈ recordsAt st (Some K) ∧ r = rebind w r0) ∨
          (∃ k', o = Some k' ∧ k' ≠ K ∧ r ∈ recordsAt st o)).
  { intros o r. rewrite recordsAt_delete. destruct o as [k'|].
    - case_decide as Hk; [by intros ?%elem_of_nil|]. intros Hr. right; right.
      exists k'. split; [done|]. split; [congruence|done].
    - intros [Hr|(r0 & -> & Hr0)%list_elem_of_fmap]%elem_of_app; [by left|].
      right; left. split; [done|]. exists r0. by rewrite HrsK. }
  split.
  - intros o r Hr. cbn [used].
    destruct (Hcase _ _ Hr) as [[-> Hr1]|[[-> (r0 & Hr0 & ->)]|(k1 & -> & Hk1 & Hr1)]].
    + by apply (wf_used st Hwf None).
    + rewrite slot_rebind. by apply (wf_used st Hwf (Some K)).
    + by apply (wf_used st Hwf (Some k1)).
  - intros o. rewrite recordsAt_delete. destruct o as [k'|].
    + case_decide; [apply NoDup_nil_2 | apply (wf_nodup st Hwf (Some k'))].
    + rewrite fmap_app, slot_fmap_rebind. apply NoDup_app. split; [apply (wf_nodup st Hwf None)|].
      split; [|rewrite <- HrsK; apply (wf_nodup st Hwf (Some K))].
      intros s (a & -> & Ha)%list_elem_of_fmap (r0 & Hs & Hr0)%list_elem_of_fmap.
      assert (None = Some K); [|done].
      apply (wf_apart st Hwf None (Some K) a r0); [done | by rewrite HrsK | done].
  - intros o1 o2 r1 r2 H1 H2 Heq.
    destruct (Hcase _ _ H1) as [[-> Hr1]|[[-> (a1 & Ha1 & ->)]|(k1 & -> & Hk1 & Hr1)]];
    destruct (Hcase _ _ H2) as [[-> Hr2]|[[-> (a2 & Ha2 & ->)]|(k2 & -> & Hk2 & Hr2)]];
      try done.
    + by apply (wf_apart st Hwf None (Some k2) r1 r2).
    + exfalso. apply Hk2. assert (Some K = Some k2) as [= ->]; [|done].
      by apply (wf_apart st Hwf (Some K) (Some k2) a1 r2).
    + by apply (wf_apart st Hwf (Some k1) None r1 r2).
    + exfalso. apply Hk1. assert (Some k1 = Some K) as [= ->]; [|done].
      by apply (wf_apart st Hwf (Some k1) (Some K) r1 a2).
    + by apply (wf_apart st Hwf (Some k1) (Some k2) r1 r2).
  - intros k' r Hr.
    destruct (Hcase _ _ Hr) as [[? _]|[[? _]|(k1 & [= <-] & Hk1 & Hr1)]]; [done..|].
    by apply (wf_keyed st Hwf k').
  - intros o r1 r2. rewrite recordsAt_delete. destruct o as [k'|].
    + case_decide; [by intros ?%elem_of_nil|]. apply (wf_mac st Hwf (Some k')).
    + intros [H1|(a1 & -> & H1)%list_elem_of_fmap]%elem_of_app
             [H2|(a2 & -> & H2)%list_elem_of_fmap]%elem_of_app Ho.
      * by apply (wf_mac st Hwf None).
      * exfalso. apply (Hidle r1 H1). rewrite Ho, ownerOf_rebind, <- Hkey.
        apply (wf_keyed st Hwf K). by rewrite HrsK.
      * exfalso. apply (Hidle r2 H2). rewrite <- Ho, ownerOf_rebind, <- Hkey.
        apply (wf_keyed st Hwf K). by rewrite HrsK.
      * cbn. apply (wf_mac st Hwf (Some K)); by rewrite ?HrsK.
Qed.

Lemma wf_fresh st w nt subnets vs rs u' :
  wf st →
  idle st (identityOf w) →
  allocateFresh w (nextMAC st) nt subnets vs (used st) = inr (rs, u') →
  wf (mkAllocator u' (active st ++ rs) (retained st) (N.succ (nextMAC st))).
Proof.
  intros Hwf Hidle Hf. apply allocateFresh_inr in Hf as (_ & -> & Hnd & Hall).
  split.
  - intros o r Hr. cbn [used]. destruct o as [k'|].
    + apply elem_of_union_r. by apply (wf_used st Hwf (Some k')).
    + cbn in Hr. apply elem_of_app in Hr as [Hr|Hr].
      * apply elem_of_union_r. by apply (wf_used st Hwf None).
      * apply elem_of_union_l, elem_of_slots. by exists r.
  - intros [k'|]; [apply (wf_nodup st Hwf (Some k'))|]. cbn.
    rewrite fmap_app. apply NoDup_app. split; [apply (wf_nodup st Hwf None)|]. split; [|done].
    intros s (a & -> & Ha)%list_elem_of_fmap (r & Hs & Hr)%list_elem_of_fmap.
    destruct (Hall r Hr) as (Hfree & _). apply Hfree. rewrite <- Hs.
    by apply (wf_used st Hwf None).
  - intros o1 o2 r1 r2 H1 H2 Heq.
    assert (Hnew : ∀ o r r', r ∈ rs → r' ∈ recordsAt st o → slot r = slot r' → False).
    { intros o r r' Hr Hr' Hs. destruct (Hall r Hr) as (Hfree & _). apply Hfree.
      rewrite Hs. by apply (wf_used st Hwf o). }
    destruct o1 as [k1|], o2 as [k2|]; cbn in H1, H2; try done.
    + by apply (wf_apart st Hwf (Some k1) (Some k2) r1 r2).
    + apply elem_of_app in H2 as [H2|H2].
      * by apply (wf_apart st Hwf (Some k1) None r1 r2).
      * exfalso. by apply (Hnew (Some k1) r2 r1).
    + apply elem_of_app in H1 as [H1|H1].
      * by apply (wf_apart st Hwf None (Some k2) r1 r2).
      * exfalso. by apply (Hnew (Some k2) r1 r2).
  - intros k' r. apply (wf_keyed st Hwf k').
  - intros [k'|] r1 r2; [apply (wf_mac st Hwf (Some k'))|]. cbn.
    intros [H1|H1]%elem_of_app [H2|H2]%elem_of_app Ho.
    + by apply (wf_mac st Hwf None).
    + exfalso. apply (Hidle r1 H1). rewrite Ho. apply ownerOf_bindingFor.
      by destruct (Hall r2 H2) as (_ & _ & ?).
    + exfalso. apply (Hidle r2 H2). rewrite <- Ho. apply ownerOf_bindingFor.
      by destruct (Hall r1 H1) as (_ & _ & ?).
    + destruct (Hall r1 H1) as (_ & -> & _). by destruct (Hall r2 H2) as (_ & -> & _).
Qed.

Lemma wf_Allocate st w c subnets rs st' :
  wf st →
  idle st (identityOf w) →
  Allocate st w c subnets = inr (rs, st') →
  wf st'.
Proof.
  intros Hwf Hidle [(k & rs0 & Ek & Er & _ & -> & ->)|(_ & u' & Hf & ->)]%Allocate_inr.
  - by apply wf_rebind.
  - by eapply wf_fresh.
Qed.

Lemma wf_step st op : wf st → admissible st op → wf (step st op).1.
Proof.
  intros Hwf Hadm. destruct op as [w c subnets|id|id]; cbn.
  - destruct (Allocate st w c subnets) as [e|[rs st']] eqn:E; [done|].
    cbn. by eapply wf_Allocate.
  - by apply wf_Release.
  - by apply wf_Purge.
Qed.

Lemma wf_execution st ops st' out : execution st ops st' out → wf st → wf st'.
Proof.
  induction 1 as [|st op ops st' out Hadm _ IH]; [done|].
  intros Hwf. by apply IH, wf_step.
Qed.

(** Every state the allocator reaches from the empty one satisfies the
    invariant. *)
Corollary wf_reachable ops st out : execution empty ops st out → wf st.
Proof. intros Hex. eapply wf_execution; [exact Hex | apply wf_empty]. Qed.

Lemma filter_all {A : Type} (P : A → Prop) `{!∀ x, Decision (P x)} (l : list A) :
  (∀ x, x ∈ l → P x) → filter P l = l.
Proof.
  induction l as [|a l IH]; [done|]. intros Hl.
  rewrite filter_cons_True by (apply Hl, list_elem_of_here).
  f_equal. apply IH. intros x Hx. by apply Hl, list_elem_of_further.
Qed.

Lemma filter_none {A : Type} (P : A → Prop) `{!∀ x, Decision (P x)} (l : list A) :
  (∀ x, x ∈ l → ¬ P x) → filter P l = [].
Proof.
  induction l as [|a l IH]; [done|]. intros Hl.
  rewrite filter_cons_False by (apply Hl, list_elem_of_here).
  apply IH. intros x Hx. by apply Hl, list_elem_of_further.
Qed.

(** What a successful allocation returns, whichever way it was served. *)
Lemma Allocate_returns st w c subnets rs st' :
  wf st →
  Allocate st w c subnets = inr (rs, st') →
  active st' = active st ++ rs ∧
  Version <$> rs = families (ipFamily c) ∧
  (∀ r, r ∈ rs →
     ownerOf r = identityOf w ∧ PodUID (binding r) = podUID w ∧
     PodName (binding r) = podName w ∧ NodeName (binding r) = nodeName w) ∧
  (used st ⊆ used st').
Proof.
  intros Hwf [(k & rs0 & Ek & Er & Hv & -> & ->)|(_ & u' & Hf & ->)]%Allocate_inr.
  - split; [done|]. split; [by rewrite <- list_fmap_compose|]. split; [|done].
    intros r (r0 & -> & Hr0)%list_elem_of_fmap. split; [|done].
    rewrite ownerOf_rebind, <- (keyIdentity_ordinal _ _ Ek).
    apply (wf_keyed st Hwf). by rewrite (recordsAt_retained _ _ rs0).
  - apply allocateFresh_inr in Hf as (Hv & -> & _ & Hall).
    split; [done|]. split; [done|]. split; [|apply union_subseteq_r].
    intros r Hr. destruct (Hall r Hr) as (_ & _ & Hb).
    split; [by apply ownerOf_bindingFor|]. by rewrite Hb.
Qed.

Lemma families_nonempty m : families m ≠ [].
Proof. by destruct m. Qed.

(** Releasing a stateful identity right after its allocation retains exactly
    the records the allocation returned. *)
Lemma Release_after_Allocate st w c subnets rs st' k :
  wf st →
  idle st (identityOf w) →
  ordinal (identityOf w) = Some k →
  Allocate st w c subnets = inr (rs, st') →
  Release st' (identityOf w) =
    mkAllocator (used st') (active st)
      (<[(referred (identityOf w), k) := retain <$> rs]> (retained st')) (nextMAC st').
Proof.
  intros Hwf Hidle Ek Ha.
  destruct (Allocate_returns _ _ _ _ _ _ Hwf Ha) as (Hact & Hv & Hown & _).
  assert (Hmine : filter (λ r, ownerOf r = identityOf w) (active st') = rs).
  { rewrite Hact, filter_app, (filter_none _ (active st)), (filter_all _ rs); [done|..].
    - intros r Hr. by destruct (Hown r Hr).
    - intros r Hr. by apply Hidle. }
  assert (Hothers : filter (λ r, ownerOf r ≠ identityOf w) (active st') = active st).
  { rewrite Hact, filter_app, (filter_all _ (active st)), (filter_none _ rs).
    - by rewrite app_nil_r.
    - intros r Hr Hne. by destruct (Hown r Hr).
    - intros r Hr. by apply Hidle. }
  unfold Release. rewrite Ek, Hmine, Hothers.
  destruct rs as [|r rs]; [|done].
  exfalso. by apply (families_nonempty (ipFamily c)).
Qed.

(** An allocation for another identity leaves what is retained under [K]
    where it is and returns none of its addresses. *)
Lemma Allocate_foreign st w c subnets rs st' K rs0 :
  wf st →
  retained st !! K = Some rs0 →
  identityOf w ≠ keyIdentity K →
  Allocate st w c subnets = inr (rs, st') →
  retained st' !! K = Some rs0 ∧
  ∀ r' r0, r' ∈ rs → r0 ∈ rs0 → slot r' ≠ slot r0.
Proof.
  intros Hwf HK Hne [(k & rs1 & Ek & Er & _ & -> & ->)|(_ & u' & Hf & ->)]%Allocate_inr.
  - assert (HKK : (referred (identityOf w), k) ≠ K).
    { intros <-. apply Hne. symmetry. by apply keyIdentity_ordinal. }
    split; [cbn; by rewrite lookup_delete_ne|].
    intros r' r0 (a & -> & Ha)%list_elem_of_fmap Hr0 Heq. rewrite slot_rebind in Heq.
    apply HKK. assert (Some (referred (identityOf w), k) = Some K) as [= ->]; [|done].
    apply (wf_apart st Hwf _ _ a r0); [|by rewrite (recordsAt_retained _ _ rs0)|done].
    by rewrite (recordsAt_retained _ _ rs1).
  - split; [done|]. apply allocateFresh_inr in Hf as (_ & _ & _ & Hall).
    intros r' r0 Hr' Hr0 Heq. destruct (Hall r' Hr') as (Hfree & _). apply Hfree.
    rewrite Heq. apply (wf_used st Hwf (Some K)). by rewrite (recordsAt_retained _ _ rs0).
Qed.

(** What is retained for an identity stays retained, and its addresses stay
    out of what is returned, for as long as the identity itself is neither
    allocated for nor purged. *)
Lemma step_foreign st op K rs0 :
  wf st →
  retained st !! K = Some rs0 →
  idle st (keyIdentity K) →
  admissible st op →
  foreign (keyIdentity K) op →
  retained (step st op).1 !! K = Some rs0 ∧
  idle (step st op).1 (keyIdentity K) ∧
  ∀ r' r0, r' ∈ (step st op).2 → r0 ∈ rs0 → slot r' ≠ slot r0.
Proof.
  intros Hwf HK Hidle Hadm Hfor. destruct op as [w c subnets|id|id]; cbn in *.
  - destruct (Allocate st w c subnets) as [e|[rs st']] eqn:E; cbn.
    { split; [done|]. split; [done|]. by intros r' r0 ?%elem_of_nil. }
    destruct (Allocate_foreign _ _ _ _ _ _ _ _ Hwf HK Hfor E) as [Hret Hout].
    destruct (Allocate_returns _ _ _ _ _ _ Hwf E) as (Hact & _ & Hown & _).
    split; [done|]. split; [|done].
    intros r. rewrite Hact. intros [Hr|Hr]%elem_of_app; [by apply Hidle|].
    destruct (Hown r Hr) as [-> _]. done.
  - split; [|split; [|by intros r' r0 ?%elem_of_nil]].
    + unfold Release. destruct (ordinal id) as [k|] eqn:Ek; [|done].
      destruct (filter (λ r, ownerOf r = id) (active st)) as [|m0 mine] eqn:Em; [done|].
      cbn. rewrite lookup_insert_ne; [done|]. intros <-.
      assert (Hm0 : m0 ∈ filter (λ r, ownerOf r = id) (active st))
        by (rewrite Em; apply list_elem_of_here).
      apply elem_of_mine in Hm0 as [Ho Hm0]. apply (Hidle m0 Hm0).
      by rewrite Ho, (keyIdentity_ordinal _ _ Ek).
    + intros r Hr. apply Hidle. revert Hr. unfold Release.
      destruct (ordinal id) as [k|] eqn:Ek.
      * destruct (filter (λ r, ownerOf r = id) (active st)) as [|m0 mine] eqn:Em; [done|].
        cbn. by intros [_ ?]%elem_of_others.
      * cbn. by intros [_ ?]%elem_of_others.
  - split; [|split; [|by intros r' r0 ?%elem_of_nil]].
    + unfold Purge, Lookup. destruct (ordinal id) as [k|] eqn:Ek; [|done].
      destruct (retained st !! (referred id, k)) as [rs|] eqn:Er; [|done].
      cbn. rewrite lookup_delete_ne; [done|]. intros <-.
      apply Hfor. symmetry. by apply keyIdentity_ordinal.
    + unfold Purge, Lookup. destruct (ordinal id) as [k|] eqn:Ek; [|done].
      by destruct (retained st !! (referred id, k)).
Qed.

Lemma execution_foreign st ops st' out K rs0 :
  execution st ops st' out →
  wf st →
  retained st !! K = Some rs0 →
  idle st (keyIdentity K) →
  Forall (foreign (keyIdentity K)) ops →
  wf st' ∧
  retained st' !! K = Some rs0 ∧
  ∀ r' r0, r' ∈ out → r0 ∈ rs0 → slot r' ≠ slot r0.
Proof.
  induction 1 as [st|st op ops st' out Hadm _ IH]; intros Hwf HK Hidle Hfor.
  - split; [done|]. split; [done|]. by intros r' r0 ?%elem_of_nil.
  - apply Forall_cons in Hfor as [Hop Hfor].
    destruct (step_foreign st op K rs0 Hwf HK Hidle Hadm Hop) as (HK1 & Hidle1 & Hout1).
    destruct (IH (wf_step _ _ Hwf Hadm) HK1 Hidle1 Hfor) as (Hwf' & HK' & Hout').
    split; [done|]. split; [done|].
    intros r' r0 [Hr|Hr]%elem_of_app Hr0; [by apply Hout1 | by apply Hout'].
Qed.





(** C7: allocate for a stateful pod, release it, allocate for a pod of the
    same owner and ordinal: the second allocation succeeds whatever subnets
    it is offered, and returns the records of the first one (same addresses,
    MAC, subnets, owner, index) bound to the UID, name and node of the new
    pod; in between they are retained under the identity. *)
Theorem retention_round_trip st w1 w2 c1 c2 subnets1 subnets2 rs1 st1 :
  wf st →
  idle st (identityOf w1) →
  is_Some (ordinal (identityOf w1)) →
  Allocate st w1 c1 subnets1 = inr (rs1, st1) →
  identityOf w2 = identityOf w1 →
  ipFamily c2 = ipFamily c1 →
  let st2 := Release st1 (identityOf w1) in
  Lookup st2 (identityOf w1) = Some (retain <$> rs1) ∧
  ∃ rs2 st3,
    Allocate st2 w2 c2 subnets2 = inr (rs2, st3) ∧
    rs1 ≠ [] ∧
    Forall2 (rebound w2) rs1 rs2.
Proof.
  intros Hwf Hidle [k Ek] Ha Hid Hfam st2.
  destruct (Allocate_returns _ _ _ _ _ _ Hwf Ha) as (_ & Hv & _ & _).
  assert (Hst2 : st2 = mkAllocator (used st1) (active st)
            (<[(referred (identityOf w1), k) := retain <$> rs1]> (retained st1)) (nextMAC st1)).
  { by eapply Release_after_Allocate. }
  assert (Hlook : Lookup st2 (identityOf w1) = Some (retain <$> rs1)).
  { unfold Lookup. rewrite Ek, Hst2. cbn. apply lookup_insert_eq. }
  split; [done|].
  exists (rebind w2 <$> rs1). eexists. split; [|split].
  - unfold Allocate. rewrite Hid, Hlook, Ek.
    rewrite decide_True; [|by rewrite <- list_fmap_compose, Hfam].
    rewrite <- list_fmap_compose. reflexivity.
  - intros ->. by apply (families_nonempty (ipFamily c1)).
  - apply Forall2_fmap_r, Forall_Forall2_diag, Forall_forall. intros r _.
    by repeat split.
Qed.

(** C6: releasing a stateful identity keeps each of its records: the record
    is found by Lookup under the same identity with PodUID and NodeName
    cleared and every other field as it was, and its address stays used.
    Through any later admissible operations that neither allocate for that
    identity nor purge it, the retained records stay as they are, their
    addresses stay used, and no record returned to another identity has the
    address of one of them. *)
Theorem release_retains_stateful_record st id k r :
  wf st →
  ordinal id = Some k →
  r ∈ active st →
  ownerOf r = id →
  let st' := Release st id in
  (∃ rs r', Lookup st' id = Some rs ∧ r' ∈ rs ∧ keptOnRelease r r') ∧
  slot r ∈ used st' ∧
  (∀ a, a ∈ active st' → slot a ≠ slot r) ∧
  ∀ ops st'' out,
    execution st' ops st'' out →
    Forall (foreign id) ops →
    Lookup st'' id = Lookup st' id ∧
    slot r ∈ used st'' ∧
    ∀ r', r' ∈ out → slot r' ≠ slot r.
Proof.
  intros Hwf Ek Hr Ho st'.
  set (mine := filter (λ r, ownerOf r = id) (active st)).
  assert (Hmine : r ∈ mine) by by apply elem_of_mine.
  assert (Hkey : keyIdentity (referred id, k) = id) by by apply keyIdentity_ordinal.
  assert (Hst' : st' = mkAllocator (used st) (filter (λ r, ownerOf r ≠ id) (active st))
            (<[(referred id, k) := retain <$> mine]> (retained st)) (nextMAC st)).
  { unfold st', Release. rewrite Ek. fold mine.
    destruct mine as [|m0 mine']; [by apply elem_of_nil in Hmine | done]. }
  assert (Hwf' : wf st') by by apply wf_Release.
  assert (Hret : retained st' !! (referred id, k) = Some (retain <$> mine)).
  { rewrite Hst'. cbn. apply lookup_insert_eq. }
  assert (Hlook : Lookup st' id = Some (retain <$> mine)).
  { unfold Lookup. by rewrite Ek. }
  assert (Hidle : idle st' (keyIdentity (referred id, k))).
  { rewrite Hkey, Hst'. intros a. cbn. by intros [? _]%elem_of_others. }
  assert (Hin : retain r ∈ retain <$> mine) by by apply list_elem_of_fmap_2.
  split; [|split; [|split]].
  - exists (retain <$> mine), (retain r). split; [done|]. split; [done|]. by repeat split.
  - rewrite Hst'. cbn. by apply (wf_used st Hwf None).
  - intros a Ha Heq.
    assert (None = Some (referred id, k)); [|done].
    apply (wf_apart st' Hwf' None (Some (referred id, k)) a (retain r)); [done| |done].
    by rewrite (recordsAt_retained _ _ (retain <$> mine)).
  - intros ops st'' out Hex Hfor. rewrite <- Hkey in Hfor.
    destruct (execution_foreign _ _ _ _ _ _ Hex Hwf' Hret Hidle Hfor) as (Hwf'' & Hret'' & Hout).
    split; [|split].
    + rewrite Hlook. unfold Lookup. by rewrite Ek.
    + rewrite <- (slot_retain r). apply (wf_used st'' Hwf'' (Some (referred id, k))).
      by rewrite (recordsAt_retained _ _ (retain <$> mine)).
    + intros r' Hr'. rewrite <- (slot_retain r). by apply Hout.
Qed.

(** *** The scenarios of the integration suite *)

Definition statefulSet : ObjectMeta := mkObjectMeta "StatefulSet" "fake" "0c5d8a1e".
Definition underlayNetwork : Network := mkNetwork "underlay-network" Underlay.
Definition overlayNetwork : Network := mkNetwork "overlay-network" Overlay.
Definition underlaySubnet : Subnet :=
  mkSubnet "underlay-subnet" underlayNetwork IPv4 3232235776 8 [3232235776%N].
Definition overlayIPv4Subnet : Subnet :=
  mkSubnet "overlay-ipv4-subnet" overlayNetwork IPv4 167772160 8 [167772160%N].
Definition overlayIPv6Subnet : Subnet :=
  mkSubnet "overlay-ipv6-subnet" overlayNetwork IPv6 4096 8 [].
Definition testSubnets : list Subnet := [underlaySubnet; overlayIPv4Subnet; overlayIPv6Subnet].

Definition pod3 : Workload := mkWorkload "uid-first" "pod-3" "node3" (Some statefulSet).
Definition pod3Recreated : Workload := mkWorkload "uid-second" "pod-3" "node1" (Some statefulSet).
Definition plainPod : Workload := mkWorkload "uid-plain" "pod-6f0e" "node1" None.
Definition overlayDualStack : Criteria := mkCriteria Overlay DualStack.

Definition pod3IPv4 : AddressRecord :=
  mkAddressRecord 167772161 IPv4 0 "overlay-ipv4-subnet" "overlay-network"
    (mkBinding "uid-first" "pod-3" "node3" statefulSet (Some 3%N)).
Definition pod3IPv6 : AddressRecord :=
  mkAddressRecord 4096 IPv6 0 "overlay-ipv6-subnet" "overlay-network"
    (mkBinding "uid-first" "pod-3" "node3" statefulSet (Some 3%N)).

Example parseOrdinal_examples :
  parseOrdinal "pod-7" = Some 7%N ∧ parseOrdinal "pod-3" = Some 3%N ∧
  parseOrdinal "pod-6f0e" = None ∧ parseOrdinal "pod" = None ∧ parseOrdinal "pod-" = None.
Proof. by repeat split. Qed.

Example identity_of_pods :
  identityOf pod3 = mkWorkloadIdentity statefulSet (Some 3%N) ∧
  identityOf pod3Recreated = identityOf pod3 ∧
  identityOf plainPod = mkWorkloadIdentity (mkObjectMeta "Pod" "pod-6f0e" "uid-plain") None.
Proof. by repeat split. Qed.

(** The state after the dual-stack allocation for the first pod. *)
Definition afterPod3 : Allocator := (step empty (OpAllocate pod3 overlayDualStack testSubnets)).1.

Example allocate_pod3 :
  (step empty (OpAllocate pod3 overlayDualStack testSubnets)).2 = [pod3IPv4; pod3IPv6] ∧
  active afterPod3 = [pod3IPv4; pod3IPv6].
Proof. by vm_compute. Qed.

Example release_plain_pod_frees_address :
  let st1 := (step empty (OpAllocate plainPod (mkCriteria Underlay IPv4Only) testSubnets)).1 in
  Address <$> active st1 = [3232235777%N] ∧
  (Stateful ∘ binding) <$> active st1 = [None] ∧
  active (Release st1 (identityOf plainPod)) = [] ∧
  used (Release st1 (identityOf plainPod)) = ∅.
Proof. by vm_compute. Qed.

Lemma wf_afterPod3 : wf afterPod3.
Proof. apply wf_step; [apply wf_empty|]. cbn. by intros r ?%elem_of_nil. Qed.





Lemma retention_round_trip_witness :
  match Allocate empty pod3 overlayDualStack testSubnets with
  | inr (rs1, st1) =>
      Lookup (Release st1 (identityOf pod3)) (identityOf pod3) = Some (retain <$> rs1) ∧
      ∃ rs2 st3,
        Allocate (Release st1 (identityOf pod3)) pod3Recreated overlayDualStack [] = inr (rs2, st3) ∧
        rs1 ≠ [] ∧
        Forall2 (rebound pod3Recreated) rs1 rs2
  | inl _ => False
  end.
Proof.
  destruct (Allocate empty pod3 overlayDualStack testSubnets) as [e|[rs1 st1]] eqn:E.
  - vm_compute in E. discriminate.
  - apply (retention_round_trip empty pod3 pod3Recreated overlayDualStack overlayDualStack
             testSubnets [] rs1 st1 wf_empty).
    + by intros r ?%elem_of_nil.
    + by exists 3%N.
    + exact E.
    + reflexivity.
    + reflexivity.
Defined.

Lemma release_retains_stateful_record_witness :
  (∃ rs r', Lookup (Release afterPod3 (identityOf pod3)) (identityOf pod3) = Some rs ∧
            r' ∈ rs ∧ keptOnRelease pod3IPv4 r') ∧
  slot pod3IPv4 ∈ used (Release afterPod3 (identityOf pod3)).
Proof.
  assert (Hin : pod3IPv4 ∈ active afterPod3) by (vm_compute; apply list_elem_of_here).
  pose proof (release_retains_stateful_record afterPod3 (identityOf pod3) 3%N pod3IPv4
                wf_afterPod3 eq_refl Hin eq_refl) as H.
  split; [exact (proj1 H) | exact (proj1 (proj2 H))].
Defined.

Example retained_after_release :
  Lookup (Release afterPod3 (identityOf pod3)) (identityOf pod3)
  = Some [retain pod3IPv4; retain pod3IPv6] ∧
  PodUID (binding (retain pod3IPv4)) = "" ∧ NodeName (binding (retain pod3IPv4)) = "" ∧
  PodName (binding (retain pod3IPv4)) = "pod-3".
Proof. by vm_compute. Qed.

Example recreate_pod3 :
  (step (Release afterPod3 (identityOf pod3)) (OpAllocate pod3Recreated overlayDualStack [])).2
  = [rebind pod3Recreated pod3IPv4; rebind pod3Recreated pod3IPv6].
Proof. by vm_compute. Qed.

Example other_pod_gets_other_address :
  let st2 := Release afterPod3 (identityOf pod3) in
  Address <$> (step st2 (OpAllocate plainPod (mkCriteria Overlay DualStack) testSubnets)).2
  = [167772162%N; 4097%N].
Proof. by vm_compute. Qed.

(** *** What the suite checks of a first allocation *)

(** [fmt.Sprintf("%d", n)] for a non-negative [n]. *)
Definition decimal (n : N) : string := NilZero.string_of_uint (N.to_uint n).

Lemma parseDigits_string_of_uint (d : Decimal.uint) (acc : N) :
  parseDigits acc (NilEmpty.string_of_uint d) =
  Some (match acc with
        | N0 => Pos.of_uint d
        | Npos p => Npos (Pos.of_uint_acc d p)
        end).
Proof.
  assert (Hacc : ∀ d a b, a = b →
            Some (N.pos (Pos.of_uint_acc d a)) = Some (N.pos (Pos.of_uint_acc d b))).
  { intros ? a b ->. reflexivity. }
  revert acc. induction d as [|d IH|d IH|d IH|d IH|d IH|d IH|d IH|d IH|d IH|d IH];
    intros acc; [by destruct acc|..];
    cbn [NilEmpty.string_of_uint parseDigits];
    (match goal with
     | |- context [digit ?c] =>
         let v := eval vm_compute in (digit c) in change (digit c) with v
     end); cbv beta iota;
    rewrite IH; (destruct acc as [|p]; [reflexivity|]);
    cbn [N.mul N.add Pos.of_uint_acc]; apply Hacc; lia.
Qed.

Lemma to_uint_nonnil (n : N) : N.to_uint n ≠ Decimal.Nil.
Proof.
  destruct n as [|p]; [discriminate|]. apply DecimalPos.Unsigned.to_uint_nonnil.
Qed.

Lemma parseDigits_decimal (n : N) : parseDigits 0 (decimal n) = Some n.
Proof.
  unfold decimal, NilZero.string_of_uint.
  pose proof (to_uint_nonnil n) as Hn.
  destruct (N.to_uint n) eqn:E; [done|..];
    rewrite <- E, parseDigits_string_of_uint; f_equal; apply DecimalN.Unsigned.of_to.
Qed.

Lemma digit_not_separator c d : digit c = Some d → (Ascii.N_of_ascii c =? 45)%N = false.
Proof.
  unfold digit. intros H. apply N.eqb_neq. intros Heq. rewrite Heq in H. discriminate.
Qed.

Lemma digits_no_separator s acc v : parseDigits acc s = Some v → afterLastSeparator s = None.
Proof.
  revert acc. induction s as [|c s IH]; intros acc; cbn; [done|].
  destruct (digit c) as [d|] eqn:Ed; [|discriminate].
  intros H. rewrite (IH _ H). by rewrite (digit_not_separator c d).
Qed.

(** The separator. *)
Definition hyphen : Ascii.ascii := Ascii.ascii_of_nat 45.

Lemma afterLastSeparator_app p s :
  afterLastSeparator s = None →
  afterLastSeparator (p +:+ String hyphen s) = Some s.
Proof.
  intros Hs. induction p as [|c p IH].
  - change (afterLastSeparator (String hyphen s) = Some s). cbn. by rewrite Hs.
  - change (afterLastSeparator (String c (p +:+ String hyphen s)) = Some s). cbn. by rewrite IH.
Qed.

Lemma decimal_nonempty n : ∃ c t, decimal n = String c t.
Proof.
  unfold decimal, NilZero.string_of_uint. pose proof (to_uint_nonnil n) as Hn.
  destruct (N.to_uint n); [done|..]; cbn; by eexists _, _.
Qed.

(** The ordinal of a name that ends in a hyphen and the decimal form of [n]
    is [n], whatever comes before the hyphen. *)
Lemma parseOrdinal_decimal (prefix : string) (n : N) :
  parseOrdinal (prefix +:+ "-" +:+ decimal n) = Some n.
Proof.
  unfold parseOrdinal.
  change (prefix +:+ "-" +:+ decimal n) with (prefix +:+ String hyphen (decimal n)).
  rewrite afterLastSeparator_app by (eapply digits_no_separator, parseDigits_decimal).
  destruct (decimal_nonempty n) as (c & t & E). rewrite E, <- E. apply parseDigits_decimal.
Qed.

(** A successful allocation for a pod of a controller whose name is a prefix,
    a hyphen and the decimal form of [n], for [n] an index the [int32] of the
    Go record holds, returns records that refer to the controller and carry
    an index which, printed after the prefix, gives the pod name back; they
    are bound to the pod's UID and node. *)
Theorem stateful_index_renders_pod_name st uid prefix n node o c subnets rs st' :
  wf st →
  (n < 2 ^ 31)%N →
  Kind o ≠ "Pod" →
  Allocate st (mkWorkload uid (prefix +:+ "-" +:+ decimal n) node (Some o)) c subnets
    = inr (rs, st') →
  ∀ r, r ∈ rs →
    ReferredObject (binding r) = o ∧
    (∃ idx, Stateful (binding r) = Some idx ∧
            prefix +:+ "-" +:+ decimal idx = PodName (binding r)) ∧
    PodUID (binding r) = uid ∧ NodeName (binding r) = node.
Proof.
  intros Hwf _ Hk Ha r Hr.
  destruct (Allocate_returns _ _ _ _ _ _ Hwf Ha) as (_ & _ & Hown & _).
  destruct (Hown r Hr) as (Ho & Hu & Hn & Hnode). cbn in Hu, Hn, Hnode.
  unfold ownerOf, identityOf, isControllerKind in Ho. cbn in Ho.
  rewrite bool_decide_eq_true_2 in Ho by done. rewrite parseOrdinal_decimal in Ho.
  injection Ho as Hro Hst. split; [done|]. split; [|done].
  exists n. by rewrite Hn.
Qed.

Lemma nextFree_Some_range u s a :
  nextFree u s = Some a →
  ((subName s, a) ∉ u) ∧ (a ∉ excluded s) ∧ (cidrFirst s ≤ a < cidrFirst s + cidrCount s)%N.
Proof.
  unfold nextFree. intros H. apply find_some in H as [Hin H].
  unfold isFree in H. apply andb_true_iff in H as [H1 H2].
  apply bool_decide_eq_true in H1. apply bool_decide_eq_true in H2.
  split; [done|]. split; [done|].
  apply list_elem_of_In in Hin. unfold addressesOf in Hin.
  apply list_elem_of_fmap in Hin as (i & -> & Hi). apply elem_of_seq in Hi. lia.
Qed.

Lemma pick_Some_range u ss s a :
  pick u ss = Some (s, a) →
  s ∈ ss ∧ (a ∉ excluded s) ∧ (cidrFirst s ≤ a < cidrFirst s + cidrCount s)%N.
Proof.
  induction ss as [|s0 ss IH]; cbn; [discriminate|].
  destruct (nextFree u s0) as [a0|] eqn:E.
  - intros [= -> ->]. apply nextFree_Some_range in E as (_ & ? & ?).
    split; [apply list_elem_of_here | done].
  - intros H. destruct (IH H) as (? & ? & ?). split; [apply list_elem_of_further; done | done].
Qed.

(** Where a freshly allocated record comes from. *)
Definition drawnFrom (nt : NetworkType) (subnets : list Subnet) (r : AddressRecord) : Prop :=
  ∃ s, s ∈ subnets ∧ netType (subNetwork s) = nt ∧ subVersion s = Version r ∧
       SubnetRef r = subName s ∧ NetworkRef r = netName (subNetwork s) ∧
       (Address r ∉ excluded s) ∧
       (cidrFirst s ≤ Address r < cidrFirst s + cidrCount s)%N.

Lemma allocateFresh_drawnFrom w mac nt subnets vs u rs u' :
  allocateFresh w mac nt subnets vs u = inr (rs, u') →
  ∀ r, r ∈ rs → drawnFrom nt subnets r.
Proof.
  revert u rs u'. induction vs as [|v vs IH]; intros u rs u'; cbn.
  - intros [= <- <-] r Hr. by apply elem_of_nil in Hr.
  - destruct (allocateOne u nt v subnets) as [e|[s a]] eqn:E1; [discriminate|].
    destruct (allocateFresh w mac nt subnets vs ({[(subName s, a)]} ∪ u)) as [e|[rs1 u1]] eqn:E2;
      [discriminate|].
    intros [= <- <-] r [->|Hr]%elem_of_cons; [|by eapply IH].
    unfold allocateOne in E1.
    destruct (eligible nt v subnets) as [|s0 ss] eqn:Ee; [discriminate|].
    destruct (pick u (s0 :: ss)) as [[s' a']|] eqn:P; [|discriminate].
    injection E1 as -> ->. apply pick_Some_range in P as (Hin & Hex & Hrange).
    rewrite <- Ee in Hin. unfold eligible in Hin.
    apply list_elem_of_filter in Hin as [[Hnt Hv] Hin].
    exists s. cbn. destruct Hrange. by repeat split.
Qed.

(** When nothing is retained for the identity, every record of a successful
    allocation is drawn from one of the subnets offered, of the requested
    network type and of the record's family: it names that subnet and its
    network, its address lies in the subnet's range, is not excluded, was not
    used before and is used afterwards. *)
Theorem fresh_allocation_within_offered_subnets st w c subnets rs st' :
  Lookup st (identityOf w) = None →
  Allocate st w c subnets = inr (rs, st') →
  ∀ r, r ∈ rs →
    drawnFrom (networkType c) subnets r ∧ (slot r ∉ used st) ∧ slot r ∈ used st'.
Proof.
  intros Hl [(k & rs0 & Ek & Er & _)|(_ & u' & Hf & ->)]%Allocate_inr r Hr.
  { unfold Lookup in Hl. rewrite Ek, Er in Hl. discriminate. }
  split; [by eapply allocateFresh_drawnFrom|].
  apply allocateFresh_inr in Hf as (_ & -> & _ & Hall).
  destruct (Hall r Hr) as (Hfree & _). split; [done|].
  cbn. apply elem_of_union_l, elem_of_slots. by exists r.
Qed.

Lemma stateful_index_renders_pod_name_witness :
  match Allocate empty pod3 overlayDualStack testSubnets with
  | inr (rs, _) =>
      Forall (λ r, ReferredObject (binding r) = statefulSet ∧
                   (∃ idx, Stateful (binding r) = Some idx ∧
                           "pod" +:+ "-" +:+ decimal idx = PodName (binding r)) ∧
                   PodUID (binding r) = "uid-first" ∧ NodeName (binding r) = "node3") rs
  | inl _ => False
  end.
Proof.
  destruct (Allocate empty pod3 overlayDualStack testSubnets) as [e|[rs st']] eqn:E.
  - vm_compute in E. discriminate.
  - apply Forall_forall.
    apply (stateful_index_renders_pod_name empty "uid-first" "pod" 3 "node3" statefulSet
             overlayDualStack testSubnets rs st' wf_empty).
    + reflexivity.
    + discriminate.
    + exact E.
Defined.

Lemma fresh_allocation_within_offered_subnets_witness :
  match Allocate empty pod3 overlayDualStack testSubnets with
  | inr (rs, st') =>
      Forall (λ r, drawnFrom Overlay testSubnets r ∧ (slot r ∉ used empty) ∧ slot r ∈ used st') rs
  | inl _ => False
  end.
Proof.
  destruct (Allocate empty pod3 overlayDualStack testSubnets) as [e|[rs st']] eqn:E.
  - vm_compute in E. discriminate.
  - apply Forall_forall.
    apply (fresh_allocation_within_offered_subnets empty pod3 overlayDualStack testSubnets
             rs st' eq_refl E).
Defined.

End Ipam.
